(** * mt-digidisplay-converter: a shallow embedding of [main.py]

    The converter cuts an image into fixed-size chunks, renders every pixel
    as a [#rrggbb] string, groups the chunks and appends each group to a text
    file.  This development embeds the functions of [main.py] and states the
    properties of the chunk grid, the colour strings, the grouping and the
    file-writing policy as theorems over that embedding.

    Python integers that are only ever counted upwards from zero (indices,
    chunk counts, sequence numbers) are [nat]; channel values of the [uint8]
    pixel buffer are [byte]; text is [string]; the output directory is a
    finite map from paths to file contents. *)

From Stdlib.Strings Require Import Ascii.
From Stdlib.Strings Require Byte.
From Stdlib Require Import NArith.
From stdpp Require Import base numbers option list strings pretty gmap sorting.

(** ** Python built-ins used by the program *)

Module Py.

(** [len(s)], [s + t] are [String.length] and [+:+]. *)

Fixpoint startswith (p s : string) : bool :=
  match p, s with
  | EmptyString, _ => true
  | String a p', String b s' => if decide (a = b) then startswith p' s' else false
  | String _ _, EmptyString => false
  end.

(** [s.replace(old, new)] for a non-empty [old]: the occurrences are found
    from the left and do not overlap.  [skip] counts the characters of an
    occurrence that is being replaced and still has to be dropped. *)
Fixpoint replace_go (old new : string) (skip : nat) (s : string) : string :=
  match s with
  | EmptyString => EmptyString
  | String c s' =>
      match skip with
      | S k => replace_go old new k s'
      | O =>
          if startswith old s
          then new +:+ replace_go old new (String.length old - 1) s'
          else String c (replace_go old new 0 s')
      end
  end.

(** With an empty [old], Python puts [new] before every character and at
    the end. *)
Fixpoint replace_empty (new s : string) : string :=
  match s with
  | EmptyString => new
  | String c s' => new +:+ String c (replace_empty new s')
  end.

Definition replace (old new s : string) : string :=
  match old with
  | EmptyString => replace_empty new s
  | String _ _ => replace_go old new 0 s
  end.

(** [sep.join(l)] *)
Fixpoint join (sep : string) (l : list string) : string :=
  match l with
  | [] => EmptyString
  | [s] => s
  | s :: l' => s +:+ sep +:+ join sep l'
  end.

(** [str(n)] of a non-negative [int]. *)
Definition str_int (n : nat) : string := pretty n.

(** [repr(s)] of a [str] without quote, backslash or control characters
    (every colour string is one): the text between single quotes. *)
Definition repr_str (s : string) : string := "'" +:+ s +:+ "'".

(** [str(l)] of a list, from the [repr] of its elements. *)
Definition str_list {A} (repr : A → string) (l : list A) : string :=
  "[" +:+ join ", " (repr <$> l) +:+ "]".

(** [str(t)] of a pair of [int]s. *)
Definition repr_pair (t : nat * nat) : string :=
  "(" +:+ str_int t.1 +:+ ", " +:+ str_int t.2 +:+ ")".

(** [l[i:j]] for [0 <= i]. *)
Definition slice {A} (i j : nat) (l : list A) : list A :=
  take (j - i) (drop i l).

(** [range(start, stop, step)] for a non-negative [start] and [step];
    [ValueError] when [step] is zero. *)
Fixpoint range_go (fuel i stop step : nat) : list nat :=
  match fuel with
  | O => []
  | S f => if decide (i < stop) then i :: range_go f (i + step) stop step else []
  end.

Definition range3 (start stop step : nat) : option (list nat) :=
  if decide (step = 0) then None else Some (range_go stop start stop step).

(** [range(n)] *)
Definition range (n : nat) : list nat := seq 0 n.

(** [math.floor(a / b)] on non-negative [int]s: [ZeroDivisionError] when
    [b] is zero.  Python divides in double precision before it rounds
    down; for integers below [2^26] the rounded quotient has the floor of
    the exact one, which covers the dimensions of an image. *)
Definition floor_div (a b : nat) : option nat :=
  if decide (b = 0) then None else Some (a / b).

(** [int(a / b)], used by the program only where [b] divides [a]. *)
Definition int_div (a b : nat) : nat := a / b.

(** The format specification [02x]: lower-case hexadecimal, at least two
    characters wide, padded with zeros on the left. *)
Definition hex_digit (d : N) : ascii :=
  default "0"%char (String.get (N.to_nat d) "0123456789abcdef").

Fixpoint hex_go (fuel : nat) (n : N) (acc : string) : string :=
  match fuel with
  | O => acc
  | S f =>
      let acc' := String (hex_digit (n `mod` 16)%N) acc in
      if decide (n `div` 16 = 0)%N then acc' else hex_go f (n `div` 16)%N acc'
  end.

Definition format_x (n : N) : string := hex_go (S (N.size_nat n)) n EmptyString.

Fixpoint zeros (k : nat) : string :=
  match k with O => EmptyString | S k' => String "0"%char (zeros k') end.

Definition zfill (width : nat) (s : string) : string :=
  zeros (width - String.length s) +:+ s.

Definition format_02x (n : N) : string := zfill 2 (format_x n).

End Py.

(** ** [pathlib] *)

Module PathLib.

(** A path is the list of its components; the last one is its name. *)
Abbreviation Path := (list string).

Definition joinpath (p : Path) (child : string) : Path := p ++ [child].

Definition name (p : Path) : string := List.last p EmptyString.

(** [name.rfind('.')]: [None] stands for Python's [-1]. *)
Fixpoint rfind_dot (s : string) : option nat :=
  match s with
  | EmptyString => None
  | String c s' =>
      match rfind_dot s' with
      | Some i => Some (S i)
      | None => if decide (c = "."%char) then Some 0 else None
      end
  end.

Fixpoint string_take (n : nat) (s : string) : string :=
  match n, s with
  | S n', String c s' => String c (string_take n' s')
  | _, _ => EmptyString
  end.

(** [PurePath.stem]: the name without its last suffix; a dot in the first
    or in the last position does not start a suffix. *)
Definition stem_of_name (nm : string) : string :=
  match rfind_dot nm with
  | Some i =>
      if decide (0 < i ∧ i < String.length nm - 1) then string_take i nm else nm
  | None => nm
  end.

Definition stem (p : Path) : string := stem_of_name (name p).

Definition with_name (p : Path) (nm : string) : Path := removelast p ++ [nm].

(** [str(p)] *)
Definition to_str (p : Path) : string := Py.join "/" p.

End PathLib.

(** ** The pixel buffer returned by [cv2.imread(_, cv2.IMREAD_COLOR)] *)

Module Cv2.

(** A [numpy] array of shape [(height, width, 3)] and element type
    [uint8]: rows of pixels of channel values.  OpenCV stores the blue
    channel first and the red one last. *)
Abbreviation ndarray := (list (list (list Byte.byte))).

Definition shape0 (a : ndarray) : nat := length a.

Definition shape1 (a : ndarray) : nat :=
  match a with [] => 0 | row :: _ => length row end.

(** [a.size]: the number of elements. *)
Definition size (a : ndarray) : nat := length (concat (concat a)).

(** [a[i, j]], [IndexError] out of range. *)
Definition getitem (a : ndarray) (i j : nat) : option (list Byte.byte) :=
  row ← a !! i; row !! j.

(** What the decoder guarantees of every array it returns: all rows have
    the same width and every pixel has three channels. *)
Definition well_formed (a : ndarray) : Prop :=
  Forall (λ row, length row = shape1 a ∧ Forall (λ px, length px = 3) row) a.

Global Instance well_formed_dec (a : ndarray) : Decision (well_formed a).
Proof. unfold well_formed. apply _. Defined.

Definition blue (px : list Byte.byte) : option Byte.byte := px !! 0.
Definition green (px : list Byte.byte) : option Byte.byte := px !! 1.
Definition red (px : list Byte.byte) : option Byte.byte := px !! 2.

End Cv2.

(** ** [collections.OrderedDict] *)

Module OrderedDict.

Section Dict.
Context {K V : Type} `{EqDecision K}.

(** A dictionary is the list of its entries in insertion order, every key
    once.  [d[k] = v]: a key already present keeps its place. *)
Fixpoint setitem (d : list (K * V)) (k : K) (v : V) : list (K * V) :=
  match d with
  | [] => [(k, v)]
  | (k', v') :: d' =>
      if decide (k = k') then (k, v) :: d' else (k', v') :: setitem d' k v
  end.

(** [OrderedDict(items)] *)
Definition of_items (items : list (K * V)) : list (K * V) :=
  foldl (λ d kv, setitem d kv.1 kv.2) [] items.

Definition keys (d : list (K * V)) : list K := fst <$> d.
Definition values (d : list (K * V)) : list V := snd <$> d.
Definition len (d : list (K * V)) : nat := length d.

Fixpoint getitem (d : list (K * V)) (k : K) : option V :=
  match d with
  | [] => None
  | (k', v) :: d' => if decide (k = k') then Some v else getitem d' k
  end.
End Dict.

End OrderedDict.

(** ** The program *)

Import PathLib.

Record Point := mkPoint { x : nat; y : nat }.
Record Image := mkImage { path : Path; chx : nat; chy : nat }.
Record Brackets := mkBrackets { open : string; close : string }.
Record Chunk := mkChunk { name : string; data : string }.

(** A chunk coordinate [(column, row)] and the colour matrix of a chunk. *)
Abbreviation Coordinate := (nat * nat)%type.
Abbreviation Matrix := (list (list string)).

Definition nl : string := String "010"%char EmptyString.
Definition dquote : string := String "034"%char EmptyString.

(** The outcome of the body of the validation loop for one candidate file:
    the image tuple, or the exception that the [try] statement catches. *)
Inductive Outcome :=
  | Accepted (img : Image)
  | NotAnImage
  | TooSmallImage
  | OtherException (err : string).

(** How a file is opened for writing. *)
Inductive Mode := mode_a | mode_w.

(** The output directory, the [open] calls made so far, each with the text
    written through it, and the lines printed. *)
Record World := mkWorld {
  files : gmap Path string;
  opens : list (Path * Mode * string);
  stdout : list string
}.

Definition print (line : string) (w : World) : World :=
  mkWorld (files w) (opens w) (stdout w ++ [line]).

Definition exists_ (w : World) (p : Path) : bool := bool_decide (is_Some (files w !! p)).

(** [with open(p, mode) as fh: fh.write(text)] when the call succeeds: mode
    [w] empties the file first, mode [a] keeps what is there; both create a
    missing file.  An [open] or [write] that the system refuses raises
    [OSError], which ends the program; the worlds below are those of calls
    that succeed. *)
Definition open_write (p : Path) (mode : Mode) (text : string) (w : World) : World :=
  let old := match mode with
             | mode_w => EmptyString
             | mode_a => default EmptyString (files w !! p)
             end in
  mkWorld (<[p := old +:+ text]> (files w)) (opens w ++ [(p, mode, text)]) (stdout w).

(** [--verbose] and the other command-line switches. *)
Record Args := mkArgs {
  verbose : bool;
  group_size : nat;
  add_code : bool;
  one_file : bool;
  overwrite : bool
}.

Section Program.

(** The image decoder: [None] for a file that it cannot read. *)
Variable imread : Path → option Cv2.ndarray.

(** The body of the [try] statement of [get_image_tuples]. *)
Definition read_image (chunk_size : Point) (image : Path) : Outcome :=
  match imread image with
  | None => OtherException "'NoneType' object has no attribute 'size'"
  | Some img =>
      if decide (Cv2.size img = 0) then NotAnImage else
      match Py.floor_div (Cv2.shape0 img) (y chunk_size),
            Py.floor_div (Cv2.shape1 img) (x chunk_size) with
      | Some vertical_ch, Some horizontal_ch =>
          if negb (bool_decide (vertical_ch ≠ 0) && bool_decide (horizontal_ch ≠ 0))
          then TooSmallImage
          else Accepted (mkImage image horizontal_ch vertical_ch)
      | _, _ => OtherException "division by zero"
      end
  end.

(** One iteration of the loop over [image_paths]. *)
Definition validate_step (chunk_size : Point) (v : bool)
    (st : list Image * list string) (image : Path) : list Image * list string :=
  match read_image chunk_size image with
  | Accepted img =>
      (st.1 ++ [img],
       if v then st.2 ++ ["Succesfully read image: " +:+ to_str image] else st.2)
  | NotAnImage =>
      (st.1, st.2 ++ ["Failed to read image (not an image or corrupted): " +:+ to_str image])
  | TooSmallImage =>
      (st.1, st.2 ++ ["Can't process image (smaller than chunk size): " +:+ to_str image])
  | OtherException err => (st.1, st.2 ++ [err])
  end.

(** [get_image_tuples], from the list [image_paths] that it has collected
    from the input path: [None] is the [SystemExit] for an empty list,
    otherwise the image tuples and the lines printed. *)
Definition get_image_tuples (image_paths : list Path) (chunk_size : Point) (v : bool)
    : option (list Image * list string) :=
  if decide (image_paths = []) then None
  else Some (foldl (validate_step chunk_size v) ([], []) image_paths).

(** The format string of [get_chunks_dict] applied to the reversed pixel. *)
Definition format_color (args : list Byte.byte) : option string :=
  a0 ← args !! 0; a1 ← args !! 1; a2 ← args !! 2;
  Some ("#" +:+ Py.format_02x (Byte.to_N a0) +:+ Py.format_02x (Byte.to_N a1)
            +:+ Py.format_02x (Byte.to_N a2)).

(** [image[i, j]] for what [cv2.imread] has returned: subscripting the
    [None] of an unreadable file raises [TypeError]. *)
Definition subscript (image : option Cv2.ndarray) (i j : nat) : option (list Byte.byte) :=
  match image with
  | Some a => Cv2.getitem a i j
  | None => None
  end.

(** The colour matrix of the chunk at [(ch_column, ch_row)]. *)
Definition chunk_matrix (image : option Cv2.ndarray) (chunk_size : Point)
    (ch_column ch_row : nat) : option Matrix :=
  mapM (λ y0,
    mapM (λ x0,
      px ← subscript image (y0 + ch_row * y chunk_size) (x0 + ch_column * x chunk_size);
      format_color (reverse px))
    (Py.range (x chunk_size)))
  (Py.range (y chunk_size)).

(** The coordinates in the order of the generator expression. *)
Definition chunk_coordinates (img : Image) : list Coordinate :=
  ch_row ← Py.range (chy img); ch_column ← Py.range (chx img); [(ch_column, ch_row)].

(** [get_chunks_dict]: the image is read again; [None] when a pixel is
    subscripted and the image could not be read or the index falls outside
    the buffer.  Nothing is raised when no pixel is subscripted. *)
Definition get_chunks_dict (img : Image) (chunk_size : Point)
    : option (list (Coordinate * Matrix)) :=
  let image := imread (path img) in
  items ← mapM (λ c : Coordinate, m ← chunk_matrix image chunk_size c.1 c.2; Some (c, m))
               (chunk_coordinates img);
  Some (OrderedDict.of_items items).

End Program.

(** [output_generator]: the groups in the order in which they are yielded;
    [None] is the [ValueError] of a zero step. *)
Definition render_group (brackets : Brackets) (ks : list Coordinate) (vs : list Matrix) : Chunk :=
  mkChunk
    (Py.replace "]" EmptyString (Py.replace "[" EmptyString (Py.str_list Py.repr_pair ks)))
    (Py.replace "]" (close brackets) (Py.replace "[" (open brackets)
       (Py.str_list (Py.str_list (Py.str_list Py.repr_str)) vs))).

Definition output_generator (chunks_dict : list (Coordinate * Matrix))
    (chunks_group_size : nat) (brackets : Brackets) : option (list (Chunk * nat)) :=
  match Py.range3 0 (OrderedDict.len chunks_dict) chunks_group_size with
  | None => None
  | Some starts =>
      Some ((λ i,
               (render_group brackets
                  (Py.slice i (i + chunks_group_size) (OrderedDict.keys chunks_dict))
                  (Py.slice i (i + chunks_group_size) (OrderedDict.values chunks_dict)),
                Py.int_div i chunks_group_size)) <$> starts)
  end.

Definition default_brackets : Brackets := mkBrackets "{" "}".

(** The first three statements of [store_output]: the file a group goes to. *)
Definition output_file_of (img : Image) (output_dir : Path) (num : nat) (one_file : bool) : Path :=
  let output_file :=
    joinpath output_dir
      (stem (path img) +:+ "[" +:+ Py.str_int (chx img) +:+ "," +:+ Py.str_int (chy img) +:+ "]") in
  let output_file :=
    if negb one_file
    then with_name output_file (stem output_file +:+ "(" +:+ Py.str_int num +:+ ")")
    else output_file in
  with_name output_file (PathLib.name output_file +:+ ".txt").

(** The mode of the [open] call that writes the group. *)
Definition write_mode (w : World) (output_file : Path) (one_file overwrite : bool) : Mode :=
  if exists_ w output_file && (negb overwrite || one_file) then mode_a else mode_w.

Definition front_code_of (add_code : bool) : string :=
  if add_code then "mem.data = " else EmptyString.

Definition back_code_of (header : string) (add_code : bool) : string :=
  if add_code
  then nl +:+ "for k,v in ipairs({"
          +:+ Py.replace " " EmptyString (Py.replace ")" dquote (Py.replace "(" dquote header))
          +:+ "}) do digiline_send(v, mem.data[k]) end" +:+ nl
  else EmptyString.

(** The text that [store_output] writes for one group. *)
Definition group_text (header data : string) (add_code : bool) : string :=
  "--" +:+ header +:+ nl +:+ nl +:+ front_code_of add_code +:+ data +:+ nl
       +:+ back_code_of header add_code +:+ nl.

Definition store_output (header data : string) (img : Image) (output_dir : Path)
    (num : nat) (one_file overwrite add_code v : bool) (w : World) : World :=
  let output_file := output_file_of img output_dir num one_file in
  let mode := write_mode w output_file one_file overwrite in
  let w1 := if overwrite && bool_decide (num = 0)
            then open_write output_file mode_w EmptyString w else w in
  let w2 := open_write output_file mode (group_text header data add_code) w1 in
  if v
  then print ("Successfully stored image: " +:+ to_str (path img) +:+ ", chunks " +:+ header
                +:+ " as " +:+ to_str output_file) w2
  else w2.

Section Main.

Variable imread : Path → option Cv2.ndarray.

(** The inner loop of [main]: every yielded group is stored. *)
Definition store_groups (args : Args) (img : Image) (o : Path)
    (groups : list (Chunk * nat)) (w : World) : World :=
  foldl (λ w0 g, store_output (name g.1) (data g.1) img o g.2
                   (one_file args) (overwrite args) (add_code args) (verbose args) w0)
        w groups.

(** The body of the loop of [main] over the image tuples; the line that
    [get_chunks_dict] prints when it is verbose is printed here. *)
Definition process_image (args : Args) (chunk_size : Point) (o : Path)
    (img : Image) (w : World) : option World :=
  chunks_dict ← get_chunks_dict imread img chunk_size;
  let w1 := if verbose args
            then print ("Successfully processed image: " +:+ to_str (path img)) w else w in
  groups ← output_generator chunks_dict (group_size args) default_brackets;
  Some (store_groups args img o groups w1).

Fixpoint process_images (args : Args) (chunk_size : Point) (o : Path)
    (image_tuples : list Image) (w : World) : option World :=
  match image_tuples with
  | [] => Some w
  | img :: rest =>
      w' ← process_image args chunk_size o img w;
      process_images args chunk_size o rest w'
  end.

(** The statements of [main] that follow the choice of the chunk size,
    once the arguments are parsed, [check_path] has accepted both paths
    and the candidate files of the input path are listed. *)
Definition run (chunk_size : Point) (args : Args) (image_paths : list Path) (o : Path)
    (w : World) : option World :=
  r ← get_image_tuples imread image_paths chunk_size (verbose args);
  w' ← process_images args chunk_size o r.1 (foldl (λ w0 line, print line w0) w r.2);
  Some (print "Program finished" w').

Definition main (args : Args) (image_paths : list Path) (o : Path) (w : World) : option World :=
  let chunk_size := mkPoint 16 16 in
  run chunk_size args image_paths o w.

End Main.

(** ** Finding the candidate files *)

Fixpoint string_drop (n : nat) (s : string) : string :=
  match n, s with
  | S n', String _ s' => string_drop n' s'
  | _, _ => s
  end.

(** [PurePath.suffix]: the name from its last dot on, when that dot is
    neither the first nor the last character; empty otherwise. *)
Definition suffix_of_name (nm : string) : string :=
  match rfind_dot nm with
  | Some i =>
      if decide (0 < i ∧ i < String.length nm - 1) then string_drop i nm else EmptyString
  | None => EmptyString
  end.

Definition suffix (p : Path) : string := suffix_of_name (PathLib.name p).

(** The order of paths: component by component, a component as text,
    character code by character code; a path comes before its extensions. *)
Fixpoint path_leb (p q : Path) : bool :=
  match p, q with
  | [], _ => true
  | _ :: _, [] => false
  | a :: p', b :: q' =>
      match String.compare a b with
      | Lt => true
      | Gt => false
      | Eq => path_leb p' q'
      end
  end.

Definition path_le (p q : Path) : Prop := path_leb p q = true.

Global Instance path_le_dec (p q : Path) : Decision (path_le p q).
Proof. unfold path_le. apply _. Defined.

(** [sorted(l)] on paths. *)
Definition sorted (l : list Path) : list Path := merge_sort path_le l.

Definition default_extensions : list string := [".jpg"; ".jpeg"; ".png"; ".bmp"; ".tiff"].

Section Discovery.

(** The input tree as [pathlib] sees it. *)
Variables (is_file is_dir : Path → bool) (iterdir : Path → list Path).

(** [p.is_file() and p.suffix in extensions] *)
Definition is_image_file (extensions : list string) (p : Path) : Prop :=
  is_file p = true ∧ suffix p ∈ extensions.

(** The first statements of [get_image_tuples], which collect
    [image_paths]. *)
Definition find_image_paths (path : Path) (extensions : list string) : list Path :=
  if decide (is_image_file extensions path) then [] ++ [path]
  else if is_dir path then filter (is_image_file extensions) (sorted (iterdir path))
  else [].

(** [get_image_tuples] as a whole, from the input path. *)
Definition get_image_tuples_from_path (imread : Path → option Cv2.ndarray) (path : Path)
    (chunk_size : Point) (extensions : list string) (v : bool)
    : option (list Image * list string) :=
  get_image_tuples imread (find_image_paths path extensions) chunk_size v.

End Discovery.

(** ** What the specification calls the encoding of a colour *)

(** A byte as two lower-case hexadecimal digits. *)
Definition hex_byte (v : Byte.byte) : string :=
  String (Py.hex_digit (Byte.to_N v `div` 16)%N)
    (String (Py.hex_digit (Byte.to_N v `mod` 16)%N) EmptyString).

(** The red-green-blue encoding [#RRGGBB]. *)
Definition rgb_hex (r g b : Byte.byte) : string :=
  "#" +:+ hex_byte r +:+ hex_byte g +:+ hex_byte b.

Definition is_lower_hex (c : ascii) : bool :=
  let n := nat_of_ascii c in
  bool_decide (48 ≤ n ≤ 57) || bool_decide (97 ≤ n ≤ 102).

(** A full match of the pattern [#[0-9a-f]{6}]. *)
Definition matches_color (s : string) : bool :=
  match s with
  | String h (String c1 (String c2 (String c3 (String c4 (String c5 (String c6 EmptyString)))))) =>
      bool_decide (h = "#"%char) && forallb is_lower_hex [c1; c2; c3; c4; c5; c6]
  | _ => false
  end.

(** The coordinate tokens of the generated loop: every parenthesis of the
    header becomes a double quote and every space is dropped. *)
Fixpoint coordinate_tokens (header : string) : string :=
  match header with
  | EmptyString => EmptyString
  | String c s =>
      if decide (c = "("%char ∨ c = ")"%char) then String "034"%char (coordinate_tokens s)
      else if decide (c = " "%char) then coordinate_tokens s
      else String c (coordinate_tokens s)
  end.

(** Reading two hexadecimal digits back as a byte. *)
Definition hex_value (c : ascii) : option N :=
  let n := N_of_ascii c in
  if decide (48 ≤ n ≤ 57)%N then Some (n - 48)%N
  else if decide (97 ≤ n ≤ 102)%N then Some (n - 87)%N
  else None.

Definition byte_of_hex (s : string) : option Byte.byte :=
  match s with
  | String c1 (String c2 EmptyString) =>
      h ← hex_value c1; l ← hex_value c2; Byte.of_N (16 * h + l)
  | _ => None
  end.

(** Whether a character occurs in a text, and whether all its characters
    pass a test. *)
Fixpoint has_char (a : ascii) (s : string) : bool :=
  match s with
  | EmptyString => false
  | String c s' => bool_decide (c = a) || has_char a s'
  end.

Fixpoint all_chars (test : ascii → bool) (s : string) : bool :=
  match s with
  | EmptyString => true
  | String c s' => test c && all_chars test s'
  end.

Definition is_digit (c : ascii) : bool :=
  bool_decide (48 ≤ nat_of_ascii c ≤ 57).

(** A list rendered between the chosen brackets, its elements separated
    by a comma and a space. *)
Definition brace_list {A} (brackets : Brackets) (repr : A → string) (l : list A) : string :=
  open brackets +:+ Py.join ", " (repr <$> l) +:+ close brackets.

(** A coordinate as the generated loop lists it: between double quotes,
    without a space. *)
Definition quoted_pair (t : nat * nat) : string :=
  dquote +:+ Py.str_int t.1 +:+ "," +:+ Py.str_int t.2 +:+ dquote.

(** The number of groups: [N / G] rounded up. *)
Definition ceil_div (n g : nat) : nat := (n + g - 1) / g.

(** The size of group [k] out of [N] chunks in groups of [G]. *)
Definition group_len (n g k : nat) : nat :=
  if decide (k = ceil_div n g - 1)
  then (if decide (n `mod` g = 0) then g else n `mod` g)
  else g.

(** The texts of the groups of one image, one after the other. *)
Definition groups_text (add_code : bool) (groups : list (Chunk * nat)) : string :=
  foldr (λ g acc, group_text (name g.1) (data g.1) add_code +:+ acc) EmptyString groups.

(** What a run leaves in the output directory: the files and the [open]
    calls, without the lines printed. *)
Definition disk (w : World) : gmap Path string * list (Path * Mode * string) :=
  (files w, opens w).

(** The write-mode policy in the words of the specification: append in
    one-file mode, or when overwriting and the group is not the first;
    truncate otherwise. *)
Definition stated_mode (one_file overwrite : bool) (num : nat) : Mode :=
  if one_file || (overwrite && bool_decide (0 < num)) then mode_a else mode_w.

(** The file name in the words of the specification. *)
Definition stated_file_name (image_stem : string) (chx chy num : nat) (one_file : bool) : string :=
  image_stem +:+ "[" +:+ Py.str_int chx +:+ "," +:+ Py.str_int chy +:+ "]"
    +:+ (if one_file then EmptyString else "(" +:+ Py.str_int num +:+ ")") +:+ ".txt".

(** ** A small image to run the program on *)

Module Sample.
Definition px (b g r : N) : list Byte.byte :=
  default Byte.x00 <$> [Byte.of_N b; Byte.of_N g; Byte.of_N r].

(** Four rows of five pixels: with chunks of two by two pixels the last
    column of pixels is left over. *)
Definition image : Cv2.ndarray :=
  [ [px 0 0 255;   px 1 2 3;     px 16 32 48;  px 255 255 255; px 9 9 9];
    [px 10 11 12;  px 0 0 0;     px 171 205 239; px 4 5 6;     px 9 9 9];
    [px 7 7 7;     px 8 8 8;     px 100 101 102; px 1 1 1;     px 9 9 9];
    [px 200 150 100; px 2 2 2;   px 3 3 3;     px 0 128 255;   px 9 9 9] ].

Definition tiny : Cv2.ndarray := [ [px 1 2 3] ].

(** Thirty-two rows of thirty-two pixels. *)
Definition square : Cv2.ndarray := replicate 32 (replicate 32 (px 10 20 30)).

Definition imread (p : Path) : option Cv2.ndarray :=
  if decide (p = ["in"; "pic.png"]) then Some image
  else if decide (p = ["in"; "my.photo.png"]) then Some image
  else if decide (p = ["in"; "tiny.png"]) then Some tiny
  else if decide (p = ["in"; "sq.png"]) then Some square
  else None.

Definition chunk_size : Point := mkPoint 2 2.
Definition img : Image := mkImage ["in"; "pic.png"] 2 2.
Definition empty_world : World := mkWorld ∅ [] [].

(** The dictionary of [image]. *)
Definition chunks_dict : list (Coordinate * Matrix) :=
  [((0, 0), [["#ff0000"; "#030201"]; ["#0c0b0a"; "#000000"]]);
   ((1, 0), [["#302010"; "#ffffff"]; ["#efcdab"; "#060504"]]);
   ((0, 1), [["#070707"; "#080808"]; ["#6496c8"; "#020202"]]);
   ((1, 1), [["#666564"; "#010101"]; ["#030303"; "#ff8000"]])].

(** An output directory left behind by an earlier run. *)
Definition old_world : World :=
  mkWorld (<[ ["out"; "pic[2,2].txt"] := "old text" ]>
            (<[ ["out"; "pic[2,2](0).txt"] := "old text" ]> ∅)) [] [].

Definition args_one_file_overwrite : Args := mkArgs false 3 true true true.

(** [image] with other pixels in its last column, which no chunk covers. *)
Definition image_other_edge : Cv2.ndarray :=
  [ [px 0 0 255;   px 1 2 3;     px 16 32 48;  px 255 255 255; px 1 1 1];
    [px 10 11 12;  px 0 0 0;     px 171 205 239; px 4 5 6;     px 2 2 2];
    [px 7 7 7;     px 8 8 8;     px 100 101 102; px 1 1 1;     px 3 3 3];
    [px 200 150 100; px 2 2 2;   px 3 3 3;     px 0 128 255;   px 4 4 4] ].

(** An input directory with three pictures, a text file and a
    sub-directory, listed out of order. *)
Definition is_file (p : Path) : bool :=
  bool_decide (p ∈ [ ["in"; "pic.png"]; ["in"; "tiny.png"]; ["in"; "sq.png"];
                     ["in"; "notes.txt"] ]).
Definition is_dir (p : Path) : bool := bool_decide (p ∈ [ ["in"]; ["in"; "sub.png"] ]).
Definition iterdir (p : Path) : list Path :=
  if decide (p = ["in"])
  then [ ["in"; "tiny.png"]; ["in"; "sub.png"]; ["in"; "sq.png"]; ["in"; "notes.txt"];
         ["in"; "pic.png"] ]
  else [].

(** A decoder that finds the other image under the same name. *)
Definition imread_other_edge (p : Path) : option Cv2.ndarray :=
  if decide (p = ["in"; "pic.png"]) then Some image_other_edge else None.
End Sample.

(** * Properties *)

(** ** Ordered dictionaries built from items with distinct keys *)

Section OrderedDictFacts.
Context {K V : Type} `{EqDecision K}.
Implicit Types (d items : list (K * V)).

Lemma setitem_fresh d k v :
  k ∉ d.*1 → OrderedDict.setitem d k v = d ++ [(k, v)].
Proof.
  induction d as [|[k' v'] d IH]; simpl; [done|].
  rewrite not_elem_of_cons. intros [Hne Hnotin].
  rewrite decide_False by done. by rewrite IH.
Qed.

Lemma of_items_from d items :
  NoDup (d ++ items).*1 →
  foldl (λ d0 kv, OrderedDict.setitem d0 kv.1 kv.2) d items = d ++ items.
Proof.
  revert d. induction items as [|[k v] items IH]; intros d Hnd; simpl.
  - by rewrite app_nil_r.
  - assert (k ∉ d.*1) as Hfresh.
    { rewrite fmap_app in Hnd. apply NoDup_app in Hnd as (_ & Hdisj & _).
      intros Hin. apply (Hdisj k Hin). simpl. left. }
    rewrite setitem_fresh by done.
    rewrite IH; rewrite <- app_assoc; simpl; done.
Qed.

Lemma of_items_NoDup items :
  NoDup items.*1 → OrderedDict.of_items items = items.
Proof. intros Hnd. unfold OrderedDict.of_items. by rewrite of_items_from. Qed.

Lemma getitem_lookup d i k v :
  NoDup d.*1 → d !! i = Some (k, v) → OrderedDict.getitem d k = Some v.
Proof.
  revert i. induction d as [|[k' v'] d IH]; intros i Hnd Hi; [done|].
  simpl in *. apply NoDup_cons in Hnd as [Hnotin Hnd].
  destruct i as [|i]; simpl in Hi.
  - injection Hi as -> ->. by rewrite decide_True.
  - rewrite decide_False; [by eapply IH|].
    intros ->. apply Hnotin. apply list_elem_of_fmap.
    exists (k', v). split; [done|]. by eapply list_elem_of_lookup_2.
Qed.
End OrderedDictFacts.

(** ** The coordinates of the chunk grid *)

Lemma bind_singleton_fmap {A B} (f : A → B) (l : list A) :
  (a ← l; [f a]) = f <$> l.
Proof. induction l as [|a l IH]; csimpl; [done|]. by rewrite IH. Qed.

Lemma grid_length (rows cols : nat) :
  length (r0 ← seq 0 rows; c0 ← seq 0 cols; [(c0, r0)]) = rows * cols.
Proof.
  induction rows as [|rows IH]; [done|].
  rewrite seq_S, bind_app, length_app, IH. csimpl.
  rewrite app_nil_r, bind_singleton_fmap, length_fmap, length_seq. lia.
Qed.

Lemma grid_lookup (rows cols i c r : nat) :
  (r0 ← seq 0 rows; c0 ← seq 0 cols; [(c0, r0)]) !! i = Some (c, r)
  ↔ c < cols ∧ r < rows ∧ i = r * cols + c.
Proof.
  revert i. induction rows as [|rows IH]; intros i.
  - csimpl. split; [done|lia].
  - rewrite seq_S, bind_app. csimpl. rewrite app_nil_r, bind_singleton_fmap.
    pose proof (grid_length rows cols) as Hlen.
    destruct (decide (i < rows * cols)) as [Hlt|Hge].
    + rewrite lookup_app_l by lia. rewrite IH. split; [lia|].
      intros (Hc & Hr & ->). split; [done|]. split; [|done]. nia.
    + rewrite lookup_app_r by lia. rewrite Hlen, list_lookup_fmap.
      destruct (decide (i - rows * cols < cols)) as [Hin|Hout].
      * rewrite lookup_seq_lt by done. simpl. split.
        -- intros [= <- <-]. lia.
        -- intros (Hc & Hr & ->). assert (r = rows) as -> by nia.
           f_equal. f_equal. lia.
      * rewrite lookup_seq_ge by lia. simpl. split; [done|].
        intros (Hc & Hr & ->). nia.
Qed.

Lemma chunk_coordinates_lookup (img : Image) (i c r : nat) :
  chunk_coordinates img !! i = Some (c, r)
  ↔ c < chx img ∧ r < chy img ∧ i = r * chx img + c.
Proof. apply grid_lookup. Qed.

Lemma chunk_coordinates_length (img : Image) :
  length (chunk_coordinates img) = chy img * chx img.
Proof. apply grid_length. Qed.

Lemma chunk_coordinates_NoDup (img : Image) : NoDup (chunk_coordinates img).
Proof.
  apply NoDup_alt. intros i j [c r] Hi Hj.
  apply chunk_coordinates_lookup in Hi as (_ & _ & ->).
  by apply chunk_coordinates_lookup in Hj as (_ & _ & ->).
Qed.

(** ** Colour strings *)

Lemma format_02x_byte (v : Byte.byte) : Py.format_02x (Byte.to_N v) = hex_byte v.
Proof. destruct v; reflexivity. Qed.

Lemma hex_byte_lower (v : Byte.byte) :
  is_lower_hex (Py.hex_digit (Byte.to_N v `div` 16)%N) = true
  ∧ is_lower_hex (Py.hex_digit (Byte.to_N v `mod` 16)%N) = true.
Proof. destruct v; split; reflexivity. Qed.

Lemma format_color_reversed (b g r : Byte.byte) :
  format_color (reverse [b; g; r]) = Some (rgb_hex r g b).
Proof.
  unfold format_color, rgb_hex. cbn [reverse rev_append lookup list_lookup mbind option_bind].
  by rewrite !format_02x_byte.
Qed.

Lemma matches_color_rgb_hex (r g b : Byte.byte) : matches_color (rgb_hex r g b) = true.
Proof.
  unfold rgb_hex, hex_byte. cbv [String.append]. cbn [matches_color forallb].
  destruct (hex_byte_lower r) as [-> ->], (hex_byte_lower g) as [-> ->],
    (hex_byte_lower b) as [-> ->].
  reflexivity.
Qed.

(** ** The chunk dictionary *)

Lemma getitem_well_formed (a : Cv2.ndarray) (i j : nat) :
  Cv2.well_formed a → i < Cv2.shape0 a → j < Cv2.shape1 a →
  ∃ b g r, Cv2.getitem a i j = Some [b; g; r].
Proof.
  intros Hwf Hi Hj. unfold Cv2.getitem.
  destruct (lookup_lt_is_Some_2 a i Hi) as [row Hrow].
  rewrite Hrow. simpl.
  pose proof (Forall_lookup_1 _ _ _ _ Hwf Hrow) as [Hlen Hpx].
  destruct (lookup_lt_is_Some_2 row j) as [px Hpixel]; [lia|].
  pose proof (Forall_lookup_1 _ _ _ _ Hpx Hpixel) as Hthree.
  destruct px as [|b [|g [|r [|]]]]; simplify_eq/=. eauto.
Qed.

Lemma get_chunks_dict_inv imread (img : Image) (chunk_size : Point)
    (d : list (Coordinate * Matrix)) :
  get_chunks_dict imread img chunk_size = Some d →
  d.*1 = chunk_coordinates img
  ∧ ∀ i c m, d !! i = Some (c, m) →
      chunk_matrix (imread (path img)) chunk_size c.1 c.2 = Some m.
Proof.
  unfold get_chunks_dict. intros Hd. cbv zeta in Hd.
  destruct (mapM _ _) as [items|] eqn:Hitems; [|done]. simpl in Hd.
  apply mapM_Some in Hitems.
  assert (items.*1 = chunk_coordinates img) as Hkeys.
  { clear Hd. induction Hitems as [|c [c' m] cs its Hc _ IH]; [done|].
    rewrite !fmap_cons, IH. f_equal.
    destruct (chunk_matrix _ _ _ _); simplify_eq/=. done. }
  rewrite of_items_NoDup in Hd
    by (rewrite Hkeys; apply chunk_coordinates_NoDup).
  injection Hd as <-. split; [done|].
  intros i c m Hi.
  destruct (Forall2_lookup_r _ _ _ _ _ Hitems Hi) as (c0 & _ & Hc0).
  destruct (chunk_matrix (imread (path img)) chunk_size c0.1 c0.2) eqn:Hm;
    simplify_eq/=. done.
Qed.

Lemma get_chunks_dict_keys imread (img : Image) (chunk_size : Point)
    (d : list (Coordinate * Matrix)) :
  get_chunks_dict imread img chunk_size = Some d →
  OrderedDict.keys d = chunk_coordinates img.
Proof. intros Hd. by destruct (get_chunks_dict_inv _ _ _ _ Hd) as [? _]. Qed.

(** ** Images that pass validation *)

Section Validated.
Variable imread : Path → option Cv2.ndarray.
Variables (chunk_size : Point) (p : Path) (arr : Cv2.ndarray) (img : Image).
Hypothesis Hread : imread p = Some arr.
Hypothesis Hwf : Cv2.well_formed arr.
Hypothesis Hacc : read_image imread chunk_size p = Accepted img.

Lemma accepted_inv :
  path img = p
  ∧ 0 < x chunk_size ∧ 0 < y chunk_size
  ∧ chx img = Cv2.shape1 arr / x chunk_size
  ∧ chy img = Cv2.shape0 arr / y chunk_size
  ∧ 0 < chx img ∧ 0 < chy img.
Proof.
  revert Hacc. unfold read_image, Py.floor_div. rewrite Hread.
  repeat case_decide; try done.
  destruct (negb _) eqn:Hneg; [done|]. intros [= <-]. simpl.
  apply negb_false_iff, andb_true_iff in Hneg as [Hv Hh].
  apply bool_decide_eq_true in Hv, Hh. repeat split; lia.
Qed.

Lemma pixel_in_bounds (column row y0 x0 : nat) :
  column < chx img → row < chy img → y0 < y chunk_size → x0 < x chunk_size →
  ∃ b g r,
    Cv2.getitem arr (y0 + row * y chunk_size) (x0 + column * x chunk_size) = Some [b; g; r].
Proof.
  destruct accepted_inv as (_ & Hx & Hy & -> & -> & _).
  intros Hc Hr Hy0 Hx0. apply getitem_well_formed; [done|..].
  - pose proof (Nat.Div0.mul_div_le (Cv2.shape0 arr) (y chunk_size)). nia.
  - pose proof (Nat.Div0.mul_div_le (Cv2.shape1 arr) (x chunk_size)). nia.
Qed.

Lemma chunk_matrix_validated (column row : nat) :
  column < chx img → row < chy img →
  ∃ m, chunk_matrix (Some arr) chunk_size column row = Some m
    ∧ ∀ y0 x0, y0 < y chunk_size → x0 < x chunk_size →
        ∃ line b g r,
          m !! y0 = Some line ∧ line !! x0 = Some (rgb_hex r g b)
          ∧ Cv2.getitem arr (row * y chunk_size + y0) (column * x chunk_size + x0)
            = Some [b; g; r].
Proof.
  intros Hc Hr. unfold chunk_matrix.
  destruct (mapM_is_Some_2 (λ y0,
      mapM (λ x0,
        px ← Cv2.getitem arr (y0 + row * y chunk_size) (x0 + column * x chunk_size);
        format_color (reverse px))
      (Py.range (x chunk_size))) (Py.range (y chunk_size))) as [m Hm].
  { apply Forall_forall. intros y0 Hy0%elem_of_seq. simpl.
    apply mapM_is_Some_2, Forall_forall. intros x0 Hx0%elem_of_seq. simpl.
    destruct (pixel_in_bounds column row y0 x0) as (b & g & r & ->); [done|done|lia|lia|].
    simpl. rewrite format_color_reversed. eauto. }
  exists m. split; [exact Hm|]. intros y0 x0 Hy0 Hx0.
  apply mapM_Some in Hm.
  destruct (Forall2_lookup_l _ _ _ y0 y0 Hm) as (line & Hline & Hrow).
  { by apply lookup_seq_lt. }
  apply mapM_Some in Hrow.
  destruct (Forall2_lookup_l _ _ _ x0 x0 Hrow) as (s & Hs & Hpx).
  { by apply lookup_seq_lt. }
  destruct (pixel_in_bounds column row y0 x0) as (b & g & r & Hget); [done..|].
  rewrite Hget in Hpx. simpl in Hpx. rewrite format_color_reversed in Hpx.
  injection Hpx as <-. exists line, b, g, r.
  split; [done|]. split; [done|].
  by rewrite (Nat.add_comm (row * _)), (Nat.add_comm (column * _)).
Qed.

Lemma get_chunks_dict_validated :
  ∃ d, get_chunks_dict imread img chunk_size = Some d
    ∧ OrderedDict.keys d = chunk_coordinates img
    ∧ NoDup (OrderedDict.keys d)
    ∧ ∀ i c m, d !! i = Some (c, m) →
        chunk_matrix (Some arr) chunk_size c.1 c.2 = Some m.
Proof.
  destruct accepted_inv as (Hpath & _).
  assert (is_Some (get_chunks_dict imread img chunk_size)) as [d Hd].
  { unfold get_chunks_dict. rewrite Hpath, Hread. cbv zeta.
    destruct (mapM_is_Some_2 (λ c : Coordinate,
        m ← chunk_matrix (Some arr) chunk_size c.1 c.2; Some (c, m))
        (chunk_coordinates img)) as [items ->]; [|by eexists].
    apply Forall_forall. intros [c r] Hin. simpl.
    apply list_elem_of_lookup in Hin as [i Hi].
    apply chunk_coordinates_lookup in Hi as (Hc & Hr & _).
    destruct (chunk_matrix_validated c r Hc Hr) as (m & -> & _). by eexists. }
  exists d. split; [done|].
  destruct (get_chunks_dict_inv _ _ _ _ Hd) as (Hkeys & Hm).
  rewrite Hpath, Hread in Hm.
  unfold OrderedDict.keys. rewrite Hkeys.
  split; [done|]. split; [apply chunk_coordinates_NoDup|done].
Qed.
End Validated.

Lemma sample_well_formed : Cv2.well_formed Sample.image.
Proof. apply (bool_decide_unpack _). vm_compute. exact I. Qed.

(** ** The claims about the chunk extractor *)

(** C1: an image of [H] by [W] pixels that passes validation with chunks of
    [h] by [w] pixels gets the descriptor [chx = W / w], [chy = H / h]
    (rounded down), and the chunk dictionary built from it has exactly
    [(H / h) * (W / w)] entries. *)
Theorem C1_chunk_grid_size imread (chunk_size : Point) (p : Path)
    (arr : Cv2.ndarray) (img : Image) :
  imread p = Some arr →
  Cv2.well_formed arr →
  read_image imread chunk_size p = Accepted img →
  chx img = Cv2.shape1 arr / x chunk_size
  ∧ chy img = Cv2.shape0 arr / y chunk_size
  ∧ ∃ d, get_chunks_dict imread img chunk_size = Some d
      ∧ OrderedDict.len d = (Cv2.shape0 arr / y chunk_size) * (Cv2.shape1 arr / x chunk_size).
Proof.
  intros Hread Hwf Hacc.
  destruct (accepted_inv _ _ _ _ _ Hread Hacc) as (_ & _ & _ & Hchx & Hchy & _).
  split; [done|]. split; [done|].
  destruct (get_chunks_dict_validated _ _ _ _ _ Hread Hwf Hacc) as (d & Hd & Hkeys & _).
  exists d. split; [done|].
  unfold OrderedDict.len. rewrite <- (length_fmap fst d).
  unfold OrderedDict.keys in Hkeys. rewrite Hkeys, chunk_coordinates_length.
  by rewrite Hchx, Hchy.
Qed.

Lemma C1_chunk_grid_size_witness :
  chx Sample.img = Cv2.shape1 Sample.image / x Sample.chunk_size
  ∧ chy Sample.img = Cv2.shape0 Sample.image / y Sample.chunk_size
  ∧ ∃ d, get_chunks_dict Sample.imread Sample.img Sample.chunk_size = Some d
      ∧ OrderedDict.len d
        = (Cv2.shape0 Sample.image / y Sample.chunk_size)
          * (Cv2.shape1 Sample.image / x Sample.chunk_size).
Proof.
  apply (C1_chunk_grid_size Sample.imread Sample.chunk_size ["in"; "pic.png"]).
  - reflexivity.
  - exact sample_well_formed.
  - reflexivity.
Defined.

(** C2: in the dictionary of a validated image, the string at position
    [(y0, x0)] of the chunk at [(column, row)] is the red-green-blue
    encoding of the source pixel at
    [(row * chunk height + y0, column * chunk width + x0)], whose channels
    the buffer stores blue first and red last, and it matches
    [#[0-9a-f]{6}]. *)
Theorem C2_color_of_source_pixel imread (chunk_size : Point) (p : Path)
    (arr : Cv2.ndarray) (img : Image) (d : list (Coordinate * Matrix))
    (column row y0 x0 : nat) :
  imread p = Some arr →
  Cv2.well_formed arr →
  read_image imread chunk_size p = Accepted img →
  get_chunks_dict imread img chunk_size = Some d →
  column < chx img → row < chy img → y0 < y chunk_size → x0 < x chunk_size →
  ∃ m line s px r g b,
    OrderedDict.getitem d (column, row) = Some m
    ∧ m !! y0 = Some line ∧ line !! x0 = Some s
    ∧ Cv2.getitem arr (row * y chunk_size + y0) (column * x chunk_size + x0) = Some px
    ∧ Cv2.blue px = Some b ∧ Cv2.green px = Some g ∧ Cv2.red px = Some r
    ∧ s = rgb_hex r g b
    ∧ matches_color s = true.
Proof.
  intros Hread Hwf Hacc Hd Hc Hr Hy0 Hx0.
  destruct (get_chunks_dict_validated _ _ _ _ _ Hread Hwf Hacc)
    as (d' & Hd' & Hkeys & Hnd & Hm).
  rewrite Hd in Hd'. injection Hd' as <-.
  assert (OrderedDict.keys d !! (row * chx img + column) = Some (column, row)) as Hkey.
  { rewrite Hkeys. by apply chunk_coordinates_lookup. }
  unfold OrderedDict.keys in Hkey. rewrite list_lookup_fmap in Hkey.
  destruct (d !! (row * chx img + column)) as [[c m]|] eqn:Hentry; simplify_eq/=.
  destruct (chunk_matrix_validated _ _ _ _ _ Hread Hwf Hacc column row Hc Hr)
    as (m' & Hm' & Hpixels).
  pose proof (Hm _ _ _ Hentry) as Hsame. simpl in Hsame.
  rewrite Hsame in Hm'. injection Hm' as <-.
  destruct (Hpixels y0 x0 Hy0 Hx0) as (line & b & g & r & Hline & Hs & Hpx).
  exists m, line, (rgb_hex r g b), [b; g; r], r, g, b.
  split; [by eapply getitem_lookup|].
  repeat (split; [done|]). apply matches_color_rgb_hex.
Qed.

Lemma C2_color_of_source_pixel_witness :
  ∃ m line s px r g b,
    OrderedDict.getitem Sample.chunks_dict (1, 0) = Some m
    ∧ m !! 1 = Some line ∧ line !! 0 = Some s
    ∧ Cv2.getitem Sample.image (0 * y Sample.chunk_size + 1) (1 * x Sample.chunk_size + 0)
      = Some px
    ∧ Cv2.blue px = Some b ∧ Cv2.green px = Some g ∧ Cv2.red px = Some r
    ∧ s = rgb_hex r g b
    ∧ matches_color s = true.
Proof.
  apply (C2_color_of_source_pixel Sample.imread Sample.chunk_size ["in"; "pic.png"]
           Sample.image Sample.img).
  - reflexivity.
  - exact sample_well_formed.
  - reflexivity.
  - reflexivity.
  - simpl; lia.
  - simpl; lia.
  - simpl; lia.
  - simpl; lia.
Defined.

(** C3: the keys of a chunk dictionary are in row-major order: of two
    coordinates, the one that comes first has the smaller row, or the same
    row and the smaller column. *)
Theorem C3_keys_row_major imread (img : Image) (chunk_size : Point)
    (d : list (Coordinate * Matrix)) (i j c1 r1 c2 r2 : nat) :
  get_chunks_dict imread img chunk_size = Some d →
  i < j →
  OrderedDict.keys d !! i = Some (c1, r1) →
  OrderedDict.keys d !! j = Some (c2, r2) →
  r1 < r2 ∨ (r1 = r2 ∧ c1 < c2).
Proof.
  intros Hd Hij Hi Hj.
  rewrite (get_chunks_dict_keys _ _ _ _ Hd) in Hi, Hj.
  apply chunk_coordinates_lookup in Hi as (Hc1 & Hr1 & ->).
  apply chunk_coordinates_lookup in Hj as (Hc2 & Hr2 & ->).
  destruct (decide (r1 < r2)) as [|Hge]; [by left|]. right.
  assert (r1 = r2) as -> by nia. split; [done|]. nia.
Qed.

Lemma C3_keys_row_major_witness : 0 < 1 ∨ (0 = 1 ∧ 1 < 0).
Proof.
  apply (C3_keys_row_major Sample.imread Sample.img Sample.chunk_size
           Sample.chunks_dict 1 2 1 0 0 1).
  - reflexivity.
  - lia.
  - reflexivity.
  - reflexivity.
Defined.

(** ** Grouping *)

Lemma ceil_div_alt (n g : nat) :
  0 < g → ceil_div n g = if decide (n `mod` g = 0) then n / g else S (n / g).
Proof.
  intros Hg. unfold ceil_div.
  pose proof (Nat.div_mod_eq n g) as Hn.
  pose proof (Nat.mod_upper_bound n g) as Hr.
  case_decide as Hz; symmetry.
  - apply (Nat.div_unique _ _ _ (g - 1)); lia.
  - apply (Nat.div_unique _ _ _ (n `mod` g - 1)); lia.
Qed.

Lemma ceil_div_0 (g : nat) : 0 < g → ceil_div 0 g = 0.
Proof. intros Hg. unfold ceil_div. apply Nat.div_small. lia. Qed.

Lemma ceil_div_step (n g : nat) :
  0 < g → 0 < n → ceil_div n g = S (ceil_div (n - g) g).
Proof.
  intros Hg Hn. unfold ceil_div.
  destruct (decide (g ≤ n)) as [Hle|Hgt].
  - replace (n + g - 1) with ((n - g + g - 1) + 1 * g) by lia.
    rewrite Nat.div_add by lia. lia.
  - replace (n - g) with 0 by lia.
    rewrite (Nat.div_small (0 + g - 1)) by lia.
    symmetry. apply (Nat.div_unique _ _ _ (n - 1)); lia.
Qed.

Lemma range_go_spec (fuel i stop step : nat) :
  0 < step → stop - i ≤ fuel →
  Py.range_go fuel i stop step = (λ k, i + k * step) <$> seq 0 (ceil_div (stop - i) step).
Proof.
  intros Hstep. revert i.
  induction fuel as [|fuel IH]; intros i Hfuel; simpl.
  - replace (stop - i) with 0 by lia. by rewrite ceil_div_0.
  - case_decide as Hlt.
    + rewrite (ceil_div_step (stop - i)) by lia. simpl. f_equal; [lia|].
      rewrite IH by lia. rewrite <- fmap_S_seq, <- list_fmap_compose.
      replace (stop - i - step) with (stop - (i + step)) by lia.
      apply list_fmap_ext. intros _ k _. simpl. lia.
    + replace (stop - i) with 0 by lia. by rewrite ceil_div_0.
Qed.

Lemma range3_spec (n g : nat) :
  0 < g → Py.range3 0 n g = Some ((λ k, k * g) <$> seq 0 (ceil_div n g)).
Proof.
  intros Hg. unfold Py.range3. rewrite decide_False by lia.
  rewrite range_go_spec by lia. by rewrite Nat.sub_0_r.
Qed.

Lemma slice_keys {A B} (i j : nat) (d : list (A * B)) :
  Py.slice i j (OrderedDict.keys d) = OrderedDict.keys (Py.slice i j d).
Proof. unfold Py.slice, OrderedDict.keys. by rewrite fmap_take, fmap_drop. Qed.

Lemma slice_values {A B} (i j : nat) (d : list (A * B)) :
  Py.slice i j (OrderedDict.values d) = OrderedDict.values (Py.slice i j d).
Proof. unfold Py.slice, OrderedDict.values. by rewrite fmap_take, fmap_drop. Qed.

Lemma slice_group_length {A} (d : list A) (g k : nat) :
  0 < g → k < ceil_div (length d) g →
  length (Py.slice (k * g) (k * g + g) d) = group_len (length d) g k.
Proof.
  intros Hg Hk. unfold Py.slice, group_len.
  rewrite length_take, length_drop.
  rewrite ceil_div_alt in * by done.
  pose proof (Nat.div_mod_eq (length d) g) as Hn.
  pose proof (Nat.mod_upper_bound (length d) g) as Hr.
  repeat case_decide; nia.
Qed.

(** The generator, group by group. *)
Lemma output_generator_spec (d : list (Coordinate * Matrix)) (g : nat) (brackets : Brackets) :
  0 < g →
  output_generator d g brackets
  = Some ((λ k, (render_group brackets
                   (OrderedDict.keys (Py.slice (k * g) (k * g + g) d))
                   (OrderedDict.values (Py.slice (k * g) (k * g + g) d)), k))
          <$> seq 0 (ceil_div (length d) g)).
Proof.
  intros Hg. unfold output_generator, OrderedDict.len.
  rewrite range3_spec by done. f_equal.
  rewrite <- list_fmap_compose. apply list_fmap_ext. intros _ k _. simpl.
  rewrite slice_keys, slice_values. unfold Py.int_div.
  by rewrite Nat.div_mul by lia.
Qed.

Lemma output_generator_indices (d : list (Coordinate * Matrix)) (g : nat)
    (brackets : Brackets) (out : list (Chunk * nat)) :
  0 < g → output_generator d g brackets = Some out →
  out.*2 = seq 0 (ceil_div (length d) g).
Proof.
  intros Hg. rewrite output_generator_spec by done. intros [= <-].
  rewrite <- list_fmap_compose. simpl. apply list_fmap_id.
Qed.

(** ** The output writer *)

Section StoreOutput.
Variables (header data : string) (img : Image) (o : Path) (num : nat).
Variables (one_file overwrite add_code v : bool) (w : World).

Let f := output_file_of img o num one_file.
Let text := group_text header data add_code.
Let w' := store_output header data img o num one_file overwrite add_code v w.

Lemma store_output_opens :
  opens w'
  = opens w
    ++ (if overwrite && bool_decide (num = 0) then [(f, mode_w, EmptyString)] else [])
    ++ [(f, write_mode w f one_file overwrite, text)].
Proof.
  subst w' f text. unfold store_output.
  destruct v, (overwrite && bool_decide (num = 0)); simpl;
    by rewrite <- ?app_assoc.
Qed.

Lemma store_output_files :
  files w'
  = <[f := (if overwrite && bool_decide (num = 0) then EmptyString
            else match write_mode w f one_file overwrite with
                 | mode_w => EmptyString
                 | mode_a => default EmptyString (files w !! f)
                 end) +:+ text]> (files w).
Proof.
  subst w' f text. unfold store_output.
  destruct v, (overwrite && bool_decide (num = 0)); simpl;
    rewrite ?insert_insert_eq, ?lookup_insert_eq; simpl;
    by destruct (write_mode _ _ _ _).
Qed.

Lemma store_output_last_open :
  last (opens w') = Some (f, write_mode w f one_file overwrite, text).
Proof. by rewrite store_output_opens, !app_assoc, last_snoc. Qed.
End StoreOutput.

Lemma write_mode_a (w : World) (p : Path) (one_file overwrite : bool) :
  write_mode w p one_file overwrite = mode_a
  ↔ is_Some (files w !! p) ∧ (overwrite = false ∨ one_file = true).
Proof.
  unfold write_mode, exists_.
  case_bool_decide as Hex; destruct overwrite, one_file; simpl; intuition congruence.
Qed.

Lemma write_mode_w (w : World) (p : Path) (one_file overwrite : bool) :
  write_mode w p one_file overwrite = mode_w
  ↔ ¬ (is_Some (files w !! p) ∧ (overwrite = false ∨ one_file = true)).
Proof.
  rewrite <- write_mode_a. destruct (write_mode w p one_file overwrite); intuition congruence.
Qed.

(** C5, as the code has it: the group is written through a file opened in
    append mode exactly when the target file exists at the time of the call
    and overwrite is off or one-file mode is on; in every other case it is
    opened in truncate mode.  The sequence number plays no part. *)
Theorem C5_write_mode_policy (header data : string) (img : Image) (o : Path) (num : nat)
    (one_file overwrite add_code v : bool) (w : World) :
  ∃ mode,
    last (opens (store_output header data img o num one_file overwrite add_code v w))
    = Some (output_file_of img o num one_file, mode, group_text header data add_code)
    ∧ (mode = mode_a
       ↔ is_Some (files w !! output_file_of img o num one_file)
         ∧ (overwrite = false ∨ one_file = true))
    ∧ (mode = mode_w
       ↔ ¬ (is_Some (files w !! output_file_of img o num one_file)
            ∧ (overwrite = false ∨ one_file = true))).
Proof.
  eexists. split; [apply store_output_last_open|].
  split; [apply write_mode_a|apply write_mode_w].
Qed.

(** C5 as stated fails: without overwrite and without one-file mode the
    stated policy truncates, but a group file left by an earlier run is
    opened in append mode and keeps its old content. *)
Lemma C5_stated_policy_counterexample :
  stated_mode false false 0 = mode_w
  ∧ opens (store_output "(0, 0)" "{}" Sample.img ["out"] 0 false false false false
             Sample.old_world)
    = [(["out"; "pic[2,2](0).txt"], mode_a, group_text "(0, 0)" "{}" false)]
  ∧ files (store_output "(0, 0)" "{}" Sample.img ["out"] 0 false false false false
             Sample.old_world) !! ["out"; "pic[2,2](0).txt"]
    = Some ("old text" +:+ group_text "(0, 0)" "{}" false).
Proof. repeat split; vm_compute; reflexivity. Qed.

(** ** A whole image in one-file mode *)

Lemma string_app_cons (c : ascii) (s t : string) : String c s +:+ t = String c (s +:+ t).
Proof. reflexivity. Qed.

Lemma string_app_assoc (s t u : string) : (s +:+ t) +:+ u = s +:+ (t +:+ u).
Proof.
  induction s as [|c s IH]; [done|].
  by rewrite !string_app_cons, IH.
Qed.

Lemma string_app_nil_r (s : string) : s +:+ EmptyString = s.
Proof. induction s as [|c s IH]; [done|]. by rewrite string_app_cons, IH. Qed.

Lemma store_groups_appends (args : Args) (img : Image) (o : Path)
    (groups : list (Chunk * nat)) (w : World) (old : string) :
  one_file args = true →
  files w !! output_file_of img o 0 true = Some old →
  Forall (λ g, g.2 ≠ 0) groups →
  files (store_groups args img o groups w) !! output_file_of img o 0 true
  = Some (old +:+ groups_text (add_code args) groups)
  ∧ opens (store_groups args img o groups w)
    = opens w ++ ((λ g, (output_file_of img o 0 true, mode_a,
                         group_text (name g.1) (data g.1) (add_code args))) <$> groups).
Proof.
  intros Hone. revert w old.
  induction groups as [|g groups IH]; intros w old Hold Hnums.
  - simpl. by rewrite string_app_nil_r, app_nil_r.
  - apply Forall_cons in Hnums as [Hnum Hnums].
    unfold store_groups in *. cbn [foldl].
    set (w1 := store_output _ _ _ _ _ _ _ _ _ w).
    assert (write_mode w (output_file_of img o 0 true) true (overwrite args) = mode_a) as Hmode.
    { apply write_mode_a. rewrite Hold. eauto. }
    assert (files w1 !! output_file_of img o 0 true
            = Some (old +:+ group_text (name g.1) (data g.1) (add_code args))) as Hfile.
    { subst w1. rewrite Hone, store_output_files.
      change (output_file_of img o g.2 true) with (output_file_of img o 0 true).
      rewrite lookup_insert_eq, Hmode, Hold, bool_decide_eq_false_2, andb_false_r by done.
      done. }
    assert (opens w1 = opens w ++ [(output_file_of img o 0 true, mode_a,
                                    group_text (name g.1) (data g.1) (add_code args))])
      as Hopens.
    { subst w1. rewrite Hone, store_output_opens.
      change (output_file_of img o g.2 true) with (output_file_of img o 0 true).
      by rewrite Hmode, bool_decide_eq_false_2, andb_false_r by done. }
    destruct (IH w1 _ Hfile Hnums) as [-> ->].
    rewrite Hopens, <- app_assoc. cbn [groups_text foldr fmap list_fmap app].
    by rewrite string_app_assoc.
Qed.

Lemma overwrite_first_group (hd dt : string) (img : Image) (o : Path)
    (single code v : bool) (w : World) :
  let w' := store_output hd dt img o 0 single true code v w in
  opens w' = opens w
             ++ [(output_file_of img o 0 single, mode_w, EmptyString);
                 (output_file_of img o 0 single,
                  write_mode w (output_file_of img o 0 single) single true,
                  group_text hd dt code)]
  ∧ files w' !! output_file_of img o 0 single = Some (group_text hd dt code).
Proof.
  intros w'. subst w'.
  rewrite store_output_opens, store_output_files, lookup_insert_eq. done.
Qed.

Lemma one_file_overwrite_run (img : Image) (o : Path) (code v : bool) (w : World)
    (d : list (Coordinate * Matrix)) (G : nat) (groups : list (Chunk * nat)) (old : string) :
  1 ≤ OrderedDict.len d → 1 ≤ G →
  output_generator d G default_brackets = Some groups →
  files w !! output_file_of img o 0 true = Some old →
  let w' := store_groups (mkArgs v G code true true) img o groups w in
  files w' !! output_file_of img o 0 true = Some (groups_text code groups)
  ∧ opens w'
    = opens w
      ++ (output_file_of img o 0 true, mode_w, EmptyString)
         :: ((λ g, (output_file_of img o 0 true, mode_a,
                    group_text (name g.1) (data g.1) code)) <$> groups).
Proof.
  intros HN HG Hgen Hold w'. subst w'.
  pose proof (output_generator_indices _ _ _ _ HG Hgen) as Hnums.
  rewrite (ceil_div_step (length d) G) in Hnums by done.
  destruct groups as [|[g0 n0] rest]; [done|].
  cbn [seq fmap list_fmap snd] in Hnums. injection Hnums as -> Hrest.
  assert (Forall (λ g : Chunk * nat, g.2 ≠ 0) rest) as Hnonzero.
  { apply Forall_forall. intros g Hg.
    assert (g.2 ∈ seq 1 (ceil_div (length d - G) G)) as Hin.
    { unfold fmap in Hrest. rewrite <- Hrest. by apply list_elem_of_fmap_2. }
    apply elem_of_seq in Hin. lia. }
  unfold store_groups. cbn [foldl one_file overwrite add_code verbose fst snd].
  destruct (overwrite_first_group (name g0) (data g0) img o true code v w) as [Hopens Hfile].
  set (w1 := store_output _ _ _ _ 0 _ _ _ _ w) in *.
  destruct (store_groups_appends (mkArgs v G code true true) img o rest w1 _
              eq_refl Hfile Hnonzero) as [Hfiles' Hopens'].
  unfold store_groups in Hfiles', Hopens'.
  cbn [one_file overwrite add_code verbose] in Hfiles', Hopens'.
  rewrite Hfiles', Hopens', Hopens.
  assert (write_mode w (output_file_of img o 0 true) true true = mode_a) as ->.
  { apply write_mode_a. rewrite Hold. eauto. }
  split; [done|]. by rewrite <- app_assoc.
Qed.

(** C6: with overwrite, the call for group 0 first opens the target file in
    truncate mode and writes nothing, then writes the group, so that the
    file holds the text of group 0 alone.  With one-file mode as well and a
    file left by an earlier run, the groups yielded for an image end up in
    the file one after the other, the old content is gone, and after the
    one truncating open every group is written in append mode. *)
Theorem C6_overwrite_truncates_once (header body : string) (img : Image) (o : Path)
    (one_file add_code v : bool) (w : World)
    (d : list (Coordinate * Matrix)) (G : nat) (groups : list (Chunk * nat)) (old : string) :
  (let w' := store_output header body img o 0 one_file true add_code v w in
   opens w' = opens w
              ++ [(output_file_of img o 0 one_file, mode_w, EmptyString);
                  (output_file_of img o 0 one_file,
                   write_mode w (output_file_of img o 0 one_file) one_file true,
                   group_text header body add_code)]
   ∧ files w' !! output_file_of img o 0 one_file = Some (group_text header body add_code))
  ∧ (1 ≤ OrderedDict.len d → 1 ≤ G →
     output_generator d G default_brackets = Some groups →
     files w !! output_file_of img o 0 true = Some old →
     let w' := store_groups (mkArgs v G add_code true true) img o groups w in
     files w' !! output_file_of img o 0 true = Some (groups_text add_code groups)
     ∧ opens w'
       = opens w
         ++ (output_file_of img o 0 true, mode_w, EmptyString)
            :: ((λ g, (output_file_of img o 0 true, mode_a,
                       group_text (name g.1) (data g.1) add_code)) <$> groups)).
Proof.
  split; [apply overwrite_first_group|apply one_file_overwrite_run].
Qed.

Lemma C6_overwrite_truncates_once_witness :
  files (store_groups Sample.args_one_file_overwrite Sample.img ["out"]
           [(render_group default_brackets [(0, 0); (1, 0); (0, 1)]
               (OrderedDict.values (take 3 Sample.chunks_dict)), 0);
            (render_group default_brackets [(1, 1)]
               (OrderedDict.values (drop 3 Sample.chunks_dict)), 1)]
           Sample.old_world) !! output_file_of Sample.img ["out"] 0 true
  = Some (groups_text true
            [(render_group default_brackets [(0, 0); (1, 0); (0, 1)]
                (OrderedDict.values (take 3 Sample.chunks_dict)), 0);
             (render_group default_brackets [(1, 1)]
                (OrderedDict.values (drop 3 Sample.chunks_dict)), 1)]).
Proof.
  destruct (C6_overwrite_truncates_once "(0, 0)" "{}" Sample.img ["out"] true true false
              Sample.old_world Sample.chunks_dict 3
              [(render_group default_brackets [(0, 0); (1, 0); (0, 1)]
                  (OrderedDict.values (take 3 Sample.chunks_dict)), 0);
               (render_group default_brackets [(1, 1)]
                  (OrderedDict.values (drop 3 Sample.chunks_dict)), 1)]
              "old text") as [_ Hrun].
  destruct Hrun as [Hfile _]; [simpl; lia|lia|reflexivity|reflexivity|].
  exact Hfile.
Defined.

(** ** Replacing one character *)

Lemma replace_char_nil (a : ascii) (new : string) :
  Py.replace (String a EmptyString) new EmptyString = EmptyString.
Proof. done. Qed.

Lemma replace_char_cons (a : ascii) (new : string) (c : ascii) (s : string) :
  Py.replace (String a EmptyString) new (String c s)
  = (if decide (a = c) then new else String c EmptyString)
      +:+ Py.replace (String a EmptyString) new s.
Proof.
  unfold Py.replace. cbn [Py.replace_go Py.startswith String.length Nat.sub].
  case_decide; [done|]. done.
Qed.

Lemma header_tokens (header : string) :
  Py.replace " " EmptyString (Py.replace ")" dquote (Py.replace "(" dquote header))
  = coordinate_tokens header.
Proof.
  induction header as [|c s IH]; [done|].
  rewrite replace_char_cons. cbn [coordinate_tokens].
  destruct (decide ("("%char = c)) as [<-|Hopen].
  { unfold dquote. cbv [String.append].
    rewrite replace_char_cons, decide_False by done. cbv [String.append].
    rewrite replace_char_cons, decide_False by done. cbv [String.append].
    rewrite decide_True by auto. f_equal. exact IH. }
  cbv [String.append]. rewrite replace_char_cons.
  destruct (decide (")"%char = c)) as [<-|Hclose].
  { unfold dquote. cbv [String.append].
    rewrite replace_char_cons, decide_False by done. cbv [String.append].
    rewrite decide_True by auto. f_equal. exact IH. }
  cbv [String.append]. rewrite replace_char_cons.
  rewrite (decide_False (P := c = "("%char ∨ c = ")"%char))
    by (intros [?|?]; congruence).
  destruct (decide (" "%char = c)) as [<-|Hspace].
  - rewrite decide_True by done. exact IH.
  - rewrite decide_False by congruence. cbv [String.append]. f_equal. exact IH.
Qed.

Lemma group_text_written (header body : string) (code : bool) :
  group_text header body code
  = if code
    then "--" +:+ header +:+ nl +:+ nl +:+ "mem.data = " +:+ body +:+ nl
           +:+ (nl +:+ "for k,v in ipairs({" +:+ coordinate_tokens header
                   +:+ "}) do digiline_send(v, mem.data[k]) end" +:+ nl)
           +:+ nl
    else "--" +:+ header +:+ nl +:+ nl +:+ body +:+ nl +:+ nl.
Proof.
  destruct code; [|reflexivity].
  unfold group_text, front_code_of, back_code_of. by rewrite header_tokens.
Qed.

(** C7: after a call of the writer the target file ends with the text of
    the group.  With add-code that text is the header comment, the data
    after the assignment text [mem.data = ], and the loop whose coordinate
    tokens are the header with every parenthesis turned into a double quote
    and every space removed; without add-code it is the header comment and
    the data alone, with neither the assignment text nor the loop.  What
    stands before this text in the file is nothing or what the file held
    before the call, and the call writes nothing else: its only other
    [open] is the truncation, which writes the empty text. *)
Theorem C7_companion_code (header data : string) (img : Image) (o : Path) (num : nat)
    (one_file overwrite add_code v : bool) (w : World) :
  ∃ before mode,
    files (store_output header data img o num one_file overwrite add_code v w)
      !! output_file_of img o num one_file
    = Some (before
            +:+ (if add_code
                 then "--" +:+ header +:+ nl +:+ nl +:+ "mem.data = " +:+ data +:+ nl
                        +:+ (nl +:+ "for k,v in ipairs({" +:+ coordinate_tokens header
                                +:+ "}) do digiline_send(v, mem.data[k]) end" +:+ nl)
                        +:+ nl
                 else "--" +:+ header +:+ nl +:+ nl +:+ data +:+ nl +:+ nl))
    ∧ (before = EmptyString ∨ files w !! output_file_of img o num one_file = Some before)
    ∧ opens (store_output header data img o num one_file overwrite add_code v w)
      = opens w
        ++ (if overwrite && bool_decide (num = 0)
            then [(output_file_of img o num one_file, mode_w, EmptyString)] else [])
        ++ [(output_file_of img o num one_file, mode,
             if add_code
             then "--" +:+ header +:+ nl +:+ nl +:+ "mem.data = " +:+ data +:+ nl
                    +:+ (nl +:+ "for k,v in ipairs({" +:+ coordinate_tokens header
                            +:+ "}) do digiline_send(v, mem.data[k]) end" +:+ nl)
                    +:+ nl
             else "--" +:+ header +:+ nl +:+ nl +:+ data +:+ nl +:+ nl)].
Proof.
  rewrite <- !group_text_written.
  rewrite store_output_files, store_output_opens, lookup_insert_eq.
  eexists _, _. split; [reflexivity|]. split; [|reflexivity].
  destruct (overwrite && bool_decide (num = 0)); [by left|].
  destruct (write_mode w (output_file_of img o num one_file) one_file overwrite)
    eqn:Hmode; [|by left].
  apply write_mode_a in Hmode as [[old Hold] _]. right. by rewrite Hold.
Qed.

Lemma C7_companion_code_witness :
  ∃ before mode,
    files (store_output "(0, 0)" "{}" Sample.img ["out"] 0 true false true false
             Sample.old_world) !! output_file_of Sample.img ["out"] 0 true
    = Some (before
            +:+ ("--" +:+ "(0, 0)" +:+ nl +:+ nl +:+ "mem.data = " +:+ "{}" +:+ nl
                   +:+ (nl +:+ "for k,v in ipairs({" +:+ (dquote +:+ "0,0" +:+ dquote)
                           +:+ "}) do digiline_send(v, mem.data[k]) end" +:+ nl)
                   +:+ nl))
    ∧ (before = EmptyString
       ∨ files Sample.old_world !! output_file_of Sample.img ["out"] 0 true = Some before)
    ∧ opens (store_output "(0, 0)" "{}" Sample.img ["out"] 0 true false true false
               Sample.old_world)
      = opens Sample.old_world
        ++ []
        ++ [(output_file_of Sample.img ["out"] 0 true, mode,
             "--" +:+ "(0, 0)" +:+ nl +:+ nl +:+ "mem.data = " +:+ "{}" +:+ nl
               +:+ (nl +:+ "for k,v in ipairs({" +:+ (dquote +:+ "0,0" +:+ dquote)
                       +:+ "}) do digiline_send(v, mem.data[k]) end" +:+ nl)
               +:+ nl)].
Proof.
  exact (C7_companion_code "(0, 0)" "{}" Sample.img ["out"] 0 true false true false
           Sample.old_world).
Defined.

(** ** Validation *)

Section Validation.
Variable imread : Path → option Cv2.ndarray.
Variables (chunk_size : Point) (v : bool).

Lemma validate_from (st : list Image * list string) (l : list Path) :
  foldl (validate_step imread chunk_size v) st l
  = (st.1 ++ (foldl (validate_step imread chunk_size v) ([], []) l).1,
     st.2 ++ (foldl (validate_step imread chunk_size v) ([], []) l).2).
Proof.
  induction l as [|image l IH] using rev_ind.
  - simpl. rewrite !app_nil_r. by destruct st.
  - rewrite !foldl_app. cbn [foldl]. rewrite IH.
    unfold validate_step. destruct (read_image imread chunk_size image); simpl;
      try destruct v; by rewrite ?app_assoc.
Qed.

Lemma validate_app (l1 l2 : list Path) :
  foldl (validate_step imread chunk_size v) ([], []) (l1 ++ l2)
  = ((foldl (validate_step imread chunk_size v) ([], []) l1).1
       ++ (foldl (validate_step imread chunk_size v) ([], []) l2).1,
     (foldl (validate_step imread chunk_size v) ([], []) l1).2
       ++ (foldl (validate_step imread chunk_size v) ([], []) l2).2).
Proof. by rewrite foldl_app, validate_from. Qed.

Lemma read_image_too_small (p : Path) (arr : Cv2.ndarray) :
  imread p = Some arr → Cv2.size arr ≠ 0 →
  0 < x chunk_size → 0 < y chunk_size →
  Cv2.shape0 arr < y chunk_size ∨ Cv2.shape1 arr < x chunk_size →
  read_image imread chunk_size p = TooSmallImage.
Proof.
  intros Hread Hsize Hx Hy Hsmall. unfold read_image, Py.floor_div.
  rewrite Hread, decide_False, !decide_False by lia.
  destruct Hsmall as [Hh|Hw].
  - rewrite (Nat.div_small (Cv2.shape0 arr)) by done.
    by rewrite (bool_decide_eq_false_2 (0 ≠ 0)) by auto.
  - rewrite (Nat.div_small (Cv2.shape1 arr)) by done.
    by rewrite (bool_decide_eq_false_2 (0 ≠ 0)), andb_false_r by auto.
Qed.
End Validation.

(** The files written do not depend on what was printed before. *)
Lemma store_output_disk (header body : string) (img : Image) (o : Path) (num : nat)
    (single ow code v : bool) (w1 w2 : World) :
  disk w1 = disk w2 →
  disk (store_output header body img o num single ow code v w1)
  = disk (store_output header body img o num single ow code v w2).
Proof.
  unfold disk. intros [= Hfiles Hopens].
  rewrite !store_output_files, !store_output_opens.
  unfold write_mode, exists_. by rewrite Hfiles, Hopens.
Qed.

Lemma store_groups_disk (args : Args) (img : Image) (o : Path)
    (groups : list (Chunk * nat)) (w1 w2 : World) :
  disk w1 = disk w2 →
  disk (store_groups args img o groups w1) = disk (store_groups args img o groups w2).
Proof.
  revert w1 w2. induction groups as [|g groups IH]; intros w1 w2 Hdisk; [done|].
  unfold store_groups in *. cbn [foldl]. apply IH. by apply store_output_disk.
Qed.

Lemma print_disk (line : string) (w : World) : disk (print line w) = disk w.
Proof. done. Qed.

Lemma prints_disk (lines : list string) (w : World) :
  disk (foldl (λ w0 line, print line w0) w lines) = disk w.
Proof.
  revert w. induction lines as [|line lines IH]; intros w; [done|].
  cbn [foldl]. by rewrite IH.
Qed.

Section RunDisk.
Variable imread : Path → option Cv2.ndarray.

Lemma process_image_disk (args : Args) (chunk_size : Point) (o : Path) (img : Image)
    (w1 w2 : World) :
  disk w1 = disk w2 →
  option_Forall2 (λ a b, disk a = disk b)
    (process_image imread args chunk_size o img w1)
    (process_image imread args chunk_size o img w2).
Proof.
  intros Hdisk. unfold process_image.
  destruct (get_chunks_dict imread img chunk_size) as [d|]; simpl; [|constructor].
  destruct (output_generator d (group_size args) default_brackets) as [groups|];
    simpl; [|constructor].
  constructor. apply store_groups_disk.
  destruct (verbose args); by rewrite ?print_disk.
Qed.

Lemma process_images_disk (args : Args) (chunk_size : Point) (o : Path)
    (image_tuples : list Image) (w1 w2 : World) :
  disk w1 = disk w2 →
  option_Forall2 (λ a b, disk a = disk b)
    (process_images imread args chunk_size o image_tuples w1)
    (process_images imread args chunk_size o image_tuples w2).
Proof.
  revert w1 w2. induction image_tuples as [|img rest IH]; intros w1 w2 Hdisk.
  - by constructor.
  - cbn [process_images].
    destruct (process_image_disk args chunk_size o img w1 w2 Hdisk) as [a b Hab|];
      simpl; [by apply IH|constructor].
Qed.
End RunDisk.

Section TooSmall.
Variable imread : Path → option Cv2.ndarray.
Variables (chunk_size : Point) (v : bool) (p : Path).
Hypothesis Hsmall : read_image imread chunk_size p = TooSmallImage.

Lemma validate_skips_too_small (before after : list Path) :
  foldl (validate_step imread chunk_size v) ([], []) (before ++ p :: after)
  = ((foldl (validate_step imread chunk_size v) ([], []) before).1
       ++ (foldl (validate_step imread chunk_size v) ([], []) after).1,
     (foldl (validate_step imread chunk_size v) ([], []) before).2
       ++ ("Can't process image (smaller than chunk size): " +:+ to_str p)
          :: (foldl (validate_step imread chunk_size v) ([], []) after).2).
Proof.
  rewrite validate_app. cbn [foldl]. rewrite (validate_from _ _ _ (validate_step _ _ _ _ _)).
  assert (validate_step imread chunk_size v ([], []) p
          = ([], ["Can't process image (smaller than chunk size): " +:+ to_str p])) as ->.
  { unfold validate_step. by rewrite Hsmall. }
  done.
Qed.
End TooSmall.

Lemma run_disk_same_tuples imread (chunk_size : Point) (args : Args) (o : Path)
    (tuples : list Image) (w1 w2 : World) :
  disk w1 = disk w2 →
  disk <$> (w' ← process_images imread args chunk_size o tuples w1;
            Some (print "Program finished" w'))
  = disk <$> (w' ← process_images imread args chunk_size o tuples w2;
              Some (print "Program finished" w')).
Proof.
  intros Hdisk.
  destruct (process_images_disk imread args chunk_size o tuples w1 w2 Hdisk) as [a b Hab|];
    simpl; [|done].
  by rewrite !print_disk, Hab.
Qed.

(** C8: a decoded image lower than the chunk height or narrower than the
    chunk width raises [TooSmallImage]; the loop prints its message and
    goes on, so the image tuples are those of the files before and after
    it; and the run leaves the output directory as a run without this file
    does (as it was, when this is the only file). *)
Theorem C8_too_small_image_is_skipped imread (chunk_size : Point) (args : Args)
    (before after : list Path) (p : Path) (arr : Cv2.ndarray) :
  imread p = Some arr →
  Cv2.size arr ≠ 0 →
  0 < x chunk_size → 0 < y chunk_size →
  Cv2.shape0 arr < y chunk_size ∨ Cv2.shape1 arr < x chunk_size →
  read_image imread chunk_size p = TooSmallImage
  ∧ (∃ tuples out,
       get_image_tuples imread (before ++ p :: after) chunk_size (verbose args)
       = Some (tuples, out)
       ∧ tuples
         = (foldl (validate_step imread chunk_size (verbose args)) ([], []) before).1
           ++ (foldl (validate_step imread chunk_size (verbose args)) ([], []) after).1
       ∧ ("Can't process image (smaller than chunk size): " +:+ to_str p) ∈ out)
  ∧ (∀ o w, before ++ after ≠ [] →
       disk <$> run imread chunk_size args (before ++ p :: after) o w
       = disk <$> run imread chunk_size args (before ++ after) o w)
  ∧ (∀ o w, disk <$> run imread chunk_size args [p] o w = Some (disk w)).
Proof.
  intros Hread Hsize Hx Hy Hdims.
  pose proof (read_image_too_small imread chunk_size p arr Hread Hsize Hx Hy Hdims) as Hsmall.
  split; [done|]. split; [|split].
  - unfold get_image_tuples. rewrite decide_False by (by destruct before).
    rewrite validate_skips_too_small by done.
    eexists _, _. split; [done|]. split; [done|].
    apply elem_of_app. right. left.
  - intros o w Hne. unfold run, get_image_tuples.
    rewrite decide_False by (by destruct before).
    rewrite (decide_False (P := before ++ after = [])) by done.
    rewrite validate_skips_too_small by done.
    rewrite validate_app. cbn [mbind option_bind fst snd].
    apply run_disk_same_tuples. by rewrite !prints_disk.
  - intros o w. unfold run, get_image_tuples. rewrite decide_False by done.
    cbn [foldl]. unfold validate_step. rewrite Hsmall. done.
Qed.

Lemma C8_too_small_image_is_skipped_witness :
  read_image Sample.imread Sample.chunk_size ["in"; "tiny.png"] = TooSmallImage
  ∧ disk <$> run Sample.imread Sample.chunk_size (mkArgs false 3 false false false)
               (["in"; "pic.png"] :: ["in"; "tiny.png"] :: []) ["out"] Sample.empty_world
    = disk <$> run Sample.imread Sample.chunk_size (mkArgs false 3 false false false)
                 (["in"; "pic.png"] :: []) ["out"] Sample.empty_world.
Proof.
  destruct (C8_too_small_image_is_skipped Sample.imread Sample.chunk_size
              (mkArgs false 3 false false false) [ ["in"; "pic.png"] ] []
              ["in"; "tiny.png"] Sample.tiny) as (Hrej & _ & Hrun & _).
  - reflexivity.
  - vm_compute. discriminate.
  - simpl. lia.
  - simpl. lia.
  - left. simpl. lia.
  - split; [exact Hrej|]. apply (Hrun ["out"] Sample.empty_world). simpl. discriminate.
Defined.

(** ** The name of the output file *)

Lemma name_joinpath (p : Path) (child : string) : PathLib.name (joinpath p child) = child.
Proof. apply last_last. Qed.

Lemma name_with_name (p : Path) (nm : string) : PathLib.name (with_name p nm) = nm.
Proof. apply last_last. Qed.

Lemma rfind_dot_cons_None (c : ascii) (s : string) :
  rfind_dot (String c s) = None ↔ c ≠ "."%char ∧ rfind_dot s = None.
Proof.
  cbn [rfind_dot]. destruct (rfind_dot s) as [i|].
  - split; [done|]. by intros [_ ?].
  - case_decide as Hc; split; try done. by intros [? _].
Qed.

Lemma rfind_dot_app_None (s t : string) :
  rfind_dot s = None → rfind_dot t = None → rfind_dot (s +:+ t) = None.
Proof.
  intros Hs Ht. induction s as [|c s IH]; [done|].
  apply rfind_dot_cons_None in Hs as [Hc Hs].
  rewrite string_app_cons. apply rfind_dot_cons_None. auto.
Qed.

Lemma pretty_N_char_not_dot (d : N) : pretty_N_char d ≠ "."%char.
Proof. unfold pretty_N_char. by repeat case_match. Qed.

Lemma rfind_dot_pretty_N_go (n : N) (s : string) :
  rfind_dot s = None → rfind_dot (pretty_N_go n s) = None.
Proof.
  revert s. induction (N.lt_wf_0 n) as [n _ IH]. intros s Hs.
  destruct (decide (0 < n)%N) as [Hpos|Hzero].
  - rewrite pretty_N_go_step by done. apply IH.
    + by apply N.div_lt.
    + apply rfind_dot_cons_None. split; [apply pretty_N_char_not_dot|done].
  - assert (n = 0%N) as -> by lia. by rewrite pretty_N_go_0.
Qed.

Lemma rfind_dot_str_int (n : nat) : rfind_dot (Py.str_int n) = None.
Proof.
  unfold Py.str_int, pretty, pretty_nat, pretty, pretty_N.
  case_decide; [done|]. by apply rfind_dot_pretty_N_go.
Qed.

Lemma stem_without_dot (nm : string) : rfind_dot nm = None → stem_of_name nm = nm.
Proof. intros Hnm. unfold stem_of_name. by rewrite Hnm. Qed.

(** In one-file mode the file is named as the specification says. *)
Lemma output_file_name_one_file (img : Image) (o : Path) (num : nat) :
  PathLib.name (output_file_of img o num true)
  = stated_file_name (stem (path img)) (chx img) (chy img) num true.
Proof.
  unfold output_file_of, stated_file_name. cbn [negb].
  rewrite name_with_name, name_joinpath.
  by rewrite !string_app_assoc.
Qed.

(** So it is with a file per group, when the stem of the image has no dot. *)
Lemma output_file_name_plain_stem (img : Image) (o : Path) (num : nat) :
  rfind_dot (stem (path img)) = None →
  PathLib.name (output_file_of img o num false)
  = stated_file_name (stem (path img)) (chx img) (chy img) num false.
Proof.
  intros Hplain. unfold output_file_of, stated_file_name. cbn [negb].
  rewrite !name_with_name. unfold stem at 1. rewrite name_joinpath.
  rewrite stem_without_dot.
  - by rewrite !string_app_assoc.
  - repeat (apply rfind_dot_app_None; [done || apply rfind_dot_str_int|]). done.
Qed.

(** The scenario of the specification: thirty-two by thirty-two pixels,
    chunks of sixteen by sixteen, groups of two, a file per group. *)
Example scenario_square_image :
  read_image Sample.imread (mkPoint 16 16) ["in"; "sq.png"]
  = Accepted (mkImage ["in"; "sq.png"] 2 2)
  ∧ (λ w, (λ e, e.1.1) <$> opens w)
      <$> main Sample.imread (mkArgs false 2 false false false)
            [ ["in"; "sq.png"] ] ["out"] Sample.empty_world
    = Some [ ["out"; "sq[2,2](0).txt"]; ["out"; "sq[2,2](1).txt"] ].
Proof. split; vm_compute; reflexivity. Qed.

(** C9 fails on the code for an image whose stem has a dot: the group file
    is named from [output_file.stem], which cuts the name at that dot, so
    the rest of the stem and the grid size are lost, while one-file mode,
    which takes [output_file.name], keeps them. *)
Theorem C9_dotted_stem_file_name :
  stem ["in"; "my.photo.png"] = "my.photo"
  ∧ PathLib.name (output_file_of (mkImage ["in"; "my.photo.png"] 2 2) ["out"] 0 false)
    = "my(0).txt"
  ∧ stated_file_name "my.photo" 2 2 0 false = "my.photo[2,2](0).txt"
  ∧ PathLib.name (output_file_of (mkImage ["in"; "my.photo.png"] 2 2) ["out"] 0 true)
    = "my.photo[2,2].txt".
Proof. repeat split; vm_compute; reflexivity. Qed.

(** C10: with overwrite off and one-file mode off, a group file that
    already exists is opened in append mode only: its old content stays as
    it is, the text of the group follows it, and no other file changes.
    Whatever the switches, a file is opened in truncate mode only when the
    target did not exist or overwrite is set. *)
Theorem C10_existing_file_is_appended (header data : string) (img : Image) (o : Path)
    (num : nat) (one_file overwrite add_code v : bool) (w : World) :
  (∀ old,
     files w !! output_file_of img o num false = Some old →
     let w' := store_output header data img o num false false add_code v w in
     opens w' = opens w ++ [(output_file_of img o num false, mode_a,
                             group_text header data add_code)]
     ∧ files w' !! output_file_of img o num false
       = Some (old +:+ group_text header data add_code)
     ∧ ∀ p, p ≠ output_file_of img o num false → files w' !! p = files w !! p)
  ∧ ∃ events,
      opens (store_output header data img o num one_file overwrite add_code v w)
      = opens w ++ events
      ∧ ∀ p text, (p, mode_w, text) ∈ events →
          files w !! output_file_of img o num one_file = None ∨ overwrite = true.
Proof.
  split.
  - intros old Hold w'. subst w'.
    assert (write_mode w (output_file_of img o num false) false false = mode_a) as Hmode.
    { apply write_mode_a. rewrite Hold. eauto. }
    rewrite store_output_opens, store_output_files, Hmode, Hold. simpl.
    split; [done|]. split; [by rewrite lookup_insert_eq|].
    intros p Hp. by rewrite lookup_insert_ne.
  - eexists. split; [apply store_output_opens|].
    intros p text Hin. apply elem_of_app in Hin as [Hin|Hin].
    + destruct overwrite; [by right|]. simpl in Hin. by apply elem_of_nil in Hin.
    + apply list_elem_of_singleton in Hin. injection Hin as _ Hmode _.
      symmetry in Hmode. apply write_mode_w in Hmode.
      destruct overwrite; [by right|]. left.
      destruct (files w !! _) eqn:Hfile; [|done].
      exfalso. apply Hmode. eauto.
Qed.

Lemma C10_existing_file_is_appended_witness :
  opens (store_output "(0, 0)" "{}" Sample.img ["out"] 0 false false false false
           Sample.old_world)
  = opens Sample.old_world
    ++ [(output_file_of Sample.img ["out"] 0 false, mode_a, group_text "(0, 0)" "{}" false)]
  ∧ files (store_output "(0, 0)" "{}" Sample.img ["out"] 0 false false false false
             Sample.old_world) !! output_file_of Sample.img ["out"] 0 false
    = Some ("old text" +:+ group_text "(0, 0)" "{}" false).
Proof.
  destruct (C10_existing_file_is_appended "(0, 0)" "{}" Sample.img ["out"] 0
              false false false false Sample.old_world) as [Hkeep _].
  destruct (Hkeep "old text") as (Hopens & Hfile & _); [reflexivity|].
  split; [exact Hopens|exact Hfile].
Defined.

(** ** The sample image, end to end *)

Example sample_groups :
  get_chunks_dict Sample.imread Sample.img Sample.chunk_size = Some Sample.chunks_dict
  ∧ output_generator Sample.chunks_dict 3 default_brackets
  = Some
      [(mkChunk "(0, 0), (1, 0), (0, 1)"
          ("{{{'#ff0000', '#030201'}, {'#0c0b0a', '#000000'}}, "
           +:+ "{{'#302010', '#ffffff'}, {'#efcdab', '#060504'}}, "
           +:+ "{{'#070707', '#080808'}, {'#6496c8', '#020202'}}}"), 0);
       (mkChunk "(1, 1)" "{{{'#666564', '#010101'}, {'#030303', '#ff8000'}}}", 1)].
Proof. split; vm_compute; reflexivity. Qed.

Example sample_tokens :
  coordinate_tokens "(0, 0), (1, 0)"
  = dquote +:+ "0,0" +:+ dquote +:+ "," +:+ dquote +:+ "1,0" +:+ dquote.
Proof. reflexivity. Qed.

(** * Further properties of the program *)

(** ** What validation keeps *)

Lemma read_image_accepted imread (chunk_size : Point) (p : Path) (img : Image) :
  read_image imread chunk_size p = Accepted img →
  ∃ arr, imread p = Some arr
    ∧ path img = p
    ∧ chx img = Cv2.shape1 arr / x chunk_size
    ∧ chy img = Cv2.shape0 arr / y chunk_size
    ∧ 1 ≤ chx img ∧ 1 ≤ chy img.
Proof.
  intros Hacc. destruct (imread p) as [arr|] eqn:Hread.
  - exists arr. split; [done|].
    destruct (accepted_inv imread chunk_size p arr img Hread Hacc)
      as (? & _ & _ & ? & ? & ? & ?).
    repeat split; done || lia.
  - unfold read_image in Hacc. by rewrite Hread in Hacc.
Qed.

Lemma validate_step_tuples imread (chunk_size : Point) (v : bool)
    (st : list Image * list string) (p : Path) :
  (validate_step imread chunk_size v st p).1
  = st.1 ++ match read_image imread chunk_size p with
            | Accepted img => [img]
            | _ => []
            end.
Proof.
  unfold validate_step. destruct (read_image imread chunk_size p); simpl;
    by rewrite ?app_nil_r.
Qed.

Lemma validated_tuples imread (chunk_size : Point) (v : bool) (paths : list Path) :
  Forall (λ img, read_image imread chunk_size (path img) = Accepted img)
    (foldl (validate_step imread chunk_size v) ([], []) paths).1
  ∧ path <$> (foldl (validate_step imread chunk_size v) ([], []) paths).1
    `sublist_of` paths.
Proof.
  induction paths as [|p paths [IHacc IHsub]] using rev_ind.
  - split; [constructor|]. simpl. constructor.
  - rewrite foldl_app. cbn [foldl]. rewrite validate_step_tuples.
    destruct (read_image imread chunk_size p) as [img| | |err] eqn:Hp;
      rewrite ?app_nil_r.
    + destruct (read_image_accepted _ _ _ _ Hp) as (_ & _ & Hpath & _).
      split.
      * apply Forall_app. split; [done|]. constructor; [|constructor].
        by rewrite Hpath.
      * rewrite fmap_app. apply sublist_app; [done|]. simpl. by rewrite Hpath.
    + split; [done|]. by apply sublist_inserts_r.
    + split; [done|]. by apply sublist_inserts_r.
    + split; [done|]. by apply sublist_inserts_r.
Qed.

(** X1: the image tuples are those of candidates, in the order of the
    candidates, each with at least one chunk column and one chunk row and
    with the grid size of its decoded image. *)
Theorem validation_keeps_order_and_grid imread (paths : list Path) (chunk_size : Point)
    (v : bool) (tuples : list Image) (out : list string) :
  get_image_tuples imread paths chunk_size v = Some (tuples, out) →
  path <$> tuples `sublist_of` paths
  ∧ Forall (λ img, ∃ arr, imread (path img) = Some arr
                     ∧ chx img = Cv2.shape1 arr / x chunk_size
                     ∧ chy img = Cv2.shape0 arr / y chunk_size
                     ∧ 1 ≤ chx img ∧ 1 ≤ chy img) tuples.
Proof.
  unfold get_image_tuples. case_decide; [done|]. intros [= Hfold].
  destruct (validated_tuples imread chunk_size v paths) as [Hacc Hsub].
  rewrite Hfold in Hacc, Hsub. simpl in Hacc, Hsub. split; [done|].
  eapply Forall_impl; [exact Hacc|]. intros img Himg. simpl in Himg.
  destruct (read_image_accepted _ _ _ _ Himg) as (arr & ? & ? & ? & ? & ? & ?).
  exists arr. by subst.
Qed.

Lemma validation_keeps_order_and_grid_witness :
  path <$> [mkImage ["in"; "pic.png"] 2 2] `sublist_of`
    [ ["in"; "tiny.png"]; ["in"; "pic.png"]; ["in"; "none.png"] ]
  ∧ Forall (λ img, ∃ arr, Sample.imread (path img) = Some arr
                     ∧ chx img = Cv2.shape1 arr / x Sample.chunk_size
                     ∧ chy img = Cv2.shape0 arr / y Sample.chunk_size
                     ∧ 1 ≤ chx img ∧ 1 ≤ chy img) [mkImage ["in"; "pic.png"] 2 2].
Proof.
  apply (validation_keeps_order_and_grid Sample.imread
           [ ["in"; "tiny.png"]; ["in"; "pic.png"]; ["in"; "none.png"] ]
           Sample.chunk_size false _
           ["Can't process image (smaller than chunk size): in/tiny.png";
            "'NoneType' object has no attribute 'size'"]).
  reflexivity.
Defined.

(** X2: a file that the decoder cannot read is not fatal: reading [size]
    of the missing array raises, the generic handler prints the error, and
    the loop goes on with the files before and after it. *)
Theorem unreadable_file_is_skipped imread (chunk_size : Point) (v : bool)
    (before after : list Path) (p : Path) :
  imread p = None →
  read_image imread chunk_size p
  = OtherException "'NoneType' object has no attribute 'size'"
  ∧ get_image_tuples imread (before ++ p :: after) chunk_size v
    = Some ((foldl (validate_step imread chunk_size v) ([], []) before).1
              ++ (foldl (validate_step imread chunk_size v) ([], []) after).1,
            (foldl (validate_step imread chunk_size v) ([], []) before).2
              ++ "'NoneType' object has no attribute 'size'"
                 :: (foldl (validate_step imread chunk_size v) ([], []) after).2).
Proof.
  intros Hnone.
  assert (read_image imread chunk_size p
          = OtherException "'NoneType' object has no attribute 'size'") as Hp.
  { unfold read_image. by rewrite Hnone. }
  split; [done|]. unfold get_image_tuples.
  rewrite decide_False by (by destruct before). f_equal.
  rewrite validate_app. cbn [foldl].
  rewrite (validate_from _ _ _ (validate_step _ _ _ _ _)).
  assert (validate_step imread chunk_size v ([], []) p
          = ([], ["'NoneType' object has no attribute 'size'"])) as ->.
  { unfold validate_step. by rewrite Hp. }
  done.
Qed.

Lemma unreadable_file_is_skipped_witness :
  read_image Sample.imread Sample.chunk_size ["in"; "none.png"]
  = OtherException "'NoneType' object has no attribute 'size'"
  ∧ get_image_tuples Sample.imread ([ ["in"; "pic.png"] ] ++ ["in"; "none.png"] :: [])
      Sample.chunk_size false
    = Some ((foldl (validate_step Sample.imread Sample.chunk_size false) ([], [])
               [ ["in"; "pic.png"] ]).1
              ++ (foldl (validate_step Sample.imread Sample.chunk_size false) ([], []) []).1,
            (foldl (validate_step Sample.imread Sample.chunk_size false) ([], [])
               [ ["in"; "pic.png"] ]).2
              ++ "'NoneType' object has no attribute 'size'"
                 :: (foldl (validate_step Sample.imread Sample.chunk_size false) ([], []) []).2).
Proof.
  apply (unreadable_file_is_skipped Sample.imread Sample.chunk_size false
           [ ["in"; "pic.png"] ] [] ["in"; "none.png"]).
  reflexivity.
Defined.

(** ** What the extractor reads and what it builds *)

Lemma mapM_ext_Forall {A B} (f g : A → option B) (l : list A) :
  Forall (λ a, f a = g a) l → mapM f l = mapM g l.
Proof.
  induction 1 as [|a l Ha _ IH]; [done|].
  change (mapM f (a :: l)) with (b ← f a; k ← mapM f l; mret (b :: k)).
  change (mapM g (a :: l)) with (b ← g a; k ← mapM g l; mret (b :: k)).
  by rewrite Ha, IH.
Qed.

Lemma chunk_matrix_agree (a1 a2 : Cv2.ndarray) (chunk_size : Point) (img : Image)
    (column row : nat) :
  (∀ i j, i < chy img * y chunk_size → j < chx img * x chunk_size →
          Cv2.getitem a1 i j = Cv2.getitem a2 i j) →
  column < chx img → row < chy img →
  chunk_matrix (Some a1) chunk_size column row
  = chunk_matrix (Some a2) chunk_size column row.
Proof.
  intros Hagree Hc Hr. unfold chunk_matrix.
  apply mapM_ext_Forall, Forall_forall. intros y0 Hy0%elem_of_seq.
  apply mapM_ext_Forall, Forall_forall. intros x0 Hx0%elem_of_seq.
  cbn [subscript]. rewrite Hagree; [done|nia|nia].
Qed.

(** X3: the pixels to the right of the last full chunk column and below
    the last full chunk row are never read: two buffers that agree on the
    [chy * h] rows and [chx * w] columns that the chunks cover give the same
    dictionary. *)
Theorem leftover_pixels_are_ignored imread1 imread2 (img : Image) (chunk_size : Point)
    (a1 a2 : Cv2.ndarray) :
  imread1 (path img) = Some a1 →
  imread2 (path img) = Some a2 →
  (∀ i j, i < chy img * y chunk_size → j < chx img * x chunk_size →
          Cv2.getitem a1 i j = Cv2.getitem a2 i j) →
  get_chunks_dict imread1 img chunk_size = get_chunks_dict imread2 img chunk_size.
Proof.
  intros H1 H2 Hagree. unfold get_chunks_dict. rewrite H1, H2. cbv zeta.
  f_equal. apply mapM_ext_Forall, Forall_forall. intros [c r] Hin.
  apply list_elem_of_lookup in Hin as [i Hi].
  apply chunk_coordinates_lookup in Hi as (Hc & Hr & _). simpl.
  by rewrite (chunk_matrix_agree a1 a2 chunk_size img c r).
Qed.

Lemma sample_images_agree (i j : nat) :
  i < 4 → j < 4 →
  Cv2.getitem Sample.image i j = Cv2.getitem Sample.image_other_edge i j.
Proof.
  intros Hi Hj.
  destruct i as [|[|[|[|i]]]]; [..|lia];
    (destruct j as [|[|[|[|j]]]]; [..|lia]); reflexivity.
Qed.

Lemma leftover_pixels_are_ignored_witness :
  get_chunks_dict Sample.imread Sample.img Sample.chunk_size
  = get_chunks_dict Sample.imread_other_edge Sample.img Sample.chunk_size.
Proof.
  apply (leftover_pixels_are_ignored Sample.imread Sample.imread_other_edge Sample.img
           Sample.chunk_size Sample.image Sample.image_other_edge).
  - reflexivity.
  - reflexivity.
  - exact sample_images_agree.
Defined.

Lemma format_color_matches (args : list Byte.byte) (s : string) :
  format_color args = Some s → matches_color s = true.
Proof.
  unfold format_color. intros Hs.
  destruct (args !! 0) as [a0|]; [|done].
  destruct (args !! 1) as [a1|]; [|done].
  destruct (args !! 2) as [a2|]; [|done].
  simpl in Hs. injection Hs as <-. rewrite !format_02x_byte.
  apply (matches_color_rgb_hex a0 a1 a2).
Qed.

Lemma chunk_matrix_shape (image : option Cv2.ndarray) (chunk_size : Point)
    (column row : nat)
    (m : Matrix) :
  chunk_matrix image chunk_size column row = Some m →
  length m = y chunk_size
  ∧ Forall (λ line, length line = x chunk_size
                    ∧ Forall (λ s, matches_color s = true) line) m.
Proof.
  unfold chunk_matrix. intros Hm. split.
  - apply length_mapM in Hm. unfold Py.range in Hm. by rewrite length_seq in Hm.
  - apply mapM_Some in Hm. apply Forall_forall. intros line Hline.
    apply list_elem_of_lookup in Hline as [i Hi].
    destruct (Forall2_lookup_r _ _ _ _ _ Hm Hi) as (y0 & _ & Hrow). split.
    + apply length_mapM in Hrow. unfold Py.range in Hrow. by rewrite length_seq in Hrow.
    + apply mapM_Some in Hrow. apply Forall_forall. intros s Hs.
      apply list_elem_of_lookup in Hs as [j Hj].
      destruct (Forall2_lookup_r _ _ _ _ _ Hrow Hj) as (x0 & _ & Hpx).
      destruct (subscript _ _ _) as [px|]; [|done]. simpl in Hpx.
      by eapply format_color_matches.
Qed.

Lemma chunk_matrices_shape imread (img : Image) (chunk_size : Point)
    (d : list (Coordinate * Matrix)) :
  get_chunks_dict imread img chunk_size = Some d →
  Forall (λ m, length m = y chunk_size
               ∧ Forall (λ line, length line = x chunk_size
                                 ∧ Forall (λ s, matches_color s = true) line) m)
    (OrderedDict.values d).
Proof.
  intros Hd. destruct (get_chunks_dict_inv _ _ _ _ Hd) as (_ & Hm).
  apply Forall_forall. intros m Hin.
  apply list_elem_of_fmap in Hin as ([c m'] & -> & Hin).
  apply list_elem_of_lookup in Hin as [i Hi].
  eapply chunk_matrix_shape. by eapply Hm.
Qed.

(** X4: every matrix of a chunk dictionary has as many rows as the chunk
    is high, every row has as many strings as the chunk is wide, and every
    string matches [#[0-9a-f]{6}]; no partial chunk is ever stored. *)
Theorem chunk_matrices_are_full imread (img : Image) (chunk_size : Point)
    (d : list (Coordinate * Matrix)) :
  get_chunks_dict imread img chunk_size = Some d →
  Forall (λ m, length m = y chunk_size
               ∧ Forall (λ line, length line = x chunk_size
                                 ∧ Forall (λ s, matches_color s = true) line) m)
    (OrderedDict.values d).
Proof. apply chunk_matrices_shape. Qed.

Lemma chunk_matrices_are_full_witness :
  Forall (λ m, length m = y Sample.chunk_size
               ∧ Forall (λ line, length line = x Sample.chunk_size
                                 ∧ Forall (λ s, matches_color s = true) line) m)
    (OrderedDict.values Sample.chunks_dict).
Proof.
  apply (chunk_matrices_are_full Sample.imread Sample.img Sample.chunk_size).
  reflexivity.
Defined.

Lemma chunk_matrix_out_of_range (image : Cv2.ndarray) (chunk_size : Point)
    (column row y0 x0 : nat) :
  y0 < y chunk_size → x0 < x chunk_size →
  Cv2.getitem image (y0 + row * y chunk_size) (x0 + column * x chunk_size) = None →
  chunk_matrix (Some image) chunk_size column row = None.
Proof.
  intros Hy0 Hx0 Hnone. unfold chunk_matrix.
  apply mapM_None_2, Exists_exists. exists y0. split; [by apply elem_of_seq; lia|].
  apply mapM_None_2, Exists_exists. exists x0. split; [by apply elem_of_seq; lia|].
  cbn [subscript]. by rewrite Hnone.
Qed.

(** X5: when the grid of the image tuple does not fit the buffer that is
    read again (the file has changed since validation), an index falls
    outside the buffer and no dictionary is built, not even a partial one. *)
Theorem extraction_fails_outside_buffer imread (img : Image) (chunk_size : Point)
    (arr : Cv2.ndarray) :
  imread (path img) = Some arr →
  Cv2.well_formed arr →
  0 < x chunk_size → 0 < y chunk_size →
  0 < chx img → 0 < chy img →
  Cv2.shape0 arr < chy img * y chunk_size ∨ Cv2.shape1 arr < chx img * x chunk_size →
  get_chunks_dict imread img chunk_size = None.
Proof.
  intros Hread Hwf Hx Hy Hchx Hchy Hsmall. unfold get_chunks_dict.
  rewrite Hread. cbv zeta.
  assert (∃ c, c ∈ chunk_coordinates img
               ∧ chunk_matrix (Some arr) chunk_size c.1 c.2 = None)
    as (c & Hc & Hnone).
  { destruct Hsmall as [Hrows|Hcols].
    - exists (0, chy img - 1). split.
      + apply list_elem_of_lookup. exists ((chy img - 1) * chx img + 0).
        apply chunk_coordinates_lookup. lia.
      + apply (chunk_matrix_out_of_range _ _ _ _ (y chunk_size - 1) 0); [lia|lia|].
        unfold Cv2.getitem. rewrite (lookup_ge_None_2 arr); [done|].
        unfold Cv2.shape0 in Hrows. simpl. nia.
    - exists (chx img - 1, 0). split.
      + apply list_elem_of_lookup. exists (0 * chx img + (chx img - 1)).
        apply chunk_coordinates_lookup. lia.
      + apply (chunk_matrix_out_of_range _ _ _ _ 0 (x chunk_size - 1)); [lia|lia|].
        unfold Cv2.getitem. destruct (arr !! _) as [line|] eqn:Hline; [|done]. simpl.
        pose proof (Forall_lookup_1 _ _ _ _ Hwf Hline) as [Hlen _].
        apply lookup_ge_None_2. rewrite Hlen. nia. }
  assert (mapM (λ c : Coordinate, m ← chunk_matrix (Some arr) chunk_size c.1 c.2;
                                  Some (c, m))
            (chunk_coordinates img) = None) as ->; [|done].
  apply mapM_None_2, Exists_exists. exists c. split; [done|]. by rewrite Hnone.
Qed.

Lemma extraction_fails_outside_buffer_witness :
  get_chunks_dict Sample.imread (mkImage ["in"; "pic.png"] 3 2) Sample.chunk_size = None.
Proof.
  apply (extraction_fails_outside_buffer Sample.imread (mkImage ["in"; "pic.png"] 3 2)
           Sample.chunk_size Sample.image).
  - reflexivity.
  - exact sample_well_formed.
  - simpl. lia.
  - simpl. lia.
  - simpl. lia.
  - simpl. lia.
  - right. simpl. lia.
Defined.

(** ** Texts and their characters *)

Lemma has_char_app (a : ascii) (s t : string) :
  has_char a (s +:+ t) = has_char a s || has_char a t.
Proof.
  induction s as [|c s IH]; [done|].
  rewrite string_app_cons. cbn [has_char]. by rewrite IH, orb_assoc.
Qed.

Lemma all_chars_app (test : ascii → bool) (s t : string) :
  all_chars test (s +:+ t) = all_chars test s && all_chars test t.
Proof.
  induction s as [|c s IH]; [done|].
  rewrite string_app_cons. cbn [all_chars]. by rewrite IH, andb_assoc.
Qed.

Lemma has_char_all_chars (test : ascii → bool) (a : ascii) (s : string) :
  test a = false → all_chars test s = true → has_char a s = false.
Proof.
  intros Ha. induction s as [|c s IH]; [done|].
  cbn [all_chars has_char]. intros [Hc Hs]%andb_true_iff.
  rewrite IH by done. rewrite orb_false_r. apply bool_decide_eq_false.
  intros ->. congruence.
Qed.

Lemma is_digit_pretty_N_char (d : N) : is_digit (pretty_N_char d) = true.
Proof. unfold pretty_N_char. by repeat case_match. Qed.

Lemma all_digits_pretty_N_go (n : N) (s : string) :
  all_chars is_digit s = true → all_chars is_digit (pretty_N_go n s) = true.
Proof.
  revert s. induction (N.lt_wf_0 n) as [n _ IH]. intros s Hs.
  destruct (decide (0 < n)%N) as [Hpos|Hzero].
  - rewrite pretty_N_go_step by done. apply IH; [by apply N.div_lt|].
    cbn [all_chars]. by rewrite is_digit_pretty_N_char.
  - assert (n = 0%N) as -> by lia. by rewrite pretty_N_go_0.
Qed.

Lemma all_digits_str_int (n : nat) : all_chars is_digit (Py.str_int n) = true.
Proof.
  unfold Py.str_int, pretty, pretty_nat, pretty, pretty_N.
  case_decide; [done|]. by apply all_digits_pretty_N_go.
Qed.

Lemma replace_char_app (a : ascii) (new s t : string) :
  Py.replace (String a EmptyString) new (s +:+ t)
  = Py.replace (String a EmptyString) new s +:+ Py.replace (String a EmptyString) new t.
Proof.
  induction s as [|c s IH]; [done|].
  rewrite string_app_cons, !replace_char_cons, IH. by rewrite string_app_assoc.
Qed.

Lemma replace_char_absent (a : ascii) (new s : string) :
  has_char a s = false → Py.replace (String a EmptyString) new s = s.
Proof.
  induction s as [|c s IH]; [done|].
  cbn [has_char]. intros [Hc Hs]%orb_false_iff.
  apply bool_decide_eq_false in Hc.
  rewrite replace_char_cons, IH, decide_False by done. done.
Qed.

Lemma replace_char_self (a : ascii) (new : string) :
  Py.replace (String a EmptyString) new (String a EmptyString) = new.
Proof.
  rewrite replace_char_cons, decide_True, replace_char_nil by done.
  apply string_app_nil_r.
Qed.

Lemma has_char_join (a : ascii) (sep : string) (l : list string) :
  has_char a sep = false →
  Forall (λ s, has_char a s = false) l →
  has_char a (Py.join sep l) = false.
Proof.
  intros Hsep. induction 1 as [|s l Hs Hl IH]; [done|].
  destruct l as [|s' l]; [done|].
  change (Py.join sep (s :: s' :: l)) with (s +:+ sep +:+ Py.join sep (s' :: l)).
  by rewrite !has_char_app, Hs, Hsep, IH.
Qed.

Lemma has_char_repr_pair (a : ascii) (t : nat * nat) :
  is_digit a = false → has_char a "(, )" = false →
  has_char a (Py.repr_pair t) = false.
Proof.
  intros Hdigit Hpunct. unfold Py.repr_pair.
  rewrite !has_char_app.
  rewrite !(has_char_all_chars is_digit a (Py.str_int _)) by (done || apply all_digits_str_int).
  cbn [has_char] in *. by repeat (apply orb_false_iff in Hpunct as [-> Hpunct]).
Qed.

(** ** The texts of a group *)

Lemma header_of_keys (brackets : Brackets) (ks : list Coordinate) (vs : list Matrix) :
  name (render_group brackets ks vs) = Py.join ", " (Py.repr_pair <$> ks).
Proof.
  unfold render_group. cbn [name]. unfold Py.str_list.
  assert (∀ a, is_digit a = false → has_char a "(, )" = false →
               has_char a (Py.join ", " (Py.repr_pair <$> ks)) = false) as Hnone.
  { intros a Hdigit Hpunct. apply has_char_join.
    - cbn [has_char] in *.
      apply orb_false_iff in Hpunct as [_ [Hcomma [Hspace _]%orb_false_iff]%orb_false_iff].
      by rewrite Hcomma, Hspace.
    - apply Forall_fmap, Forall_forall. intros t _. by apply has_char_repr_pair. }
  rewrite !replace_char_app.
  rewrite (replace_char_absent "[" _ (Py.join _ _)) by (by apply Hnone).
  rewrite (replace_char_absent "]" _ (Py.join _ _)) by (by apply Hnone).
  exact (string_app_nil_r _).
Qed.

(** X6: the header of every yielded group is the list of its coordinates
    as the pairs [(column, row)], separated by a comma and a space, without
    the square brackets of the list. *)
Theorem group_header_lists_coordinates (d : list (Coordinate * Matrix)) (G : nat)
    (brackets : Brackets) (out : list (Chunk * nat)) (k n : nat) (chunk : Chunk) :
  1 ≤ G →
  output_generator d G brackets = Some out →
  out !! k = Some (chunk, n) →
  n = k
  ∧ name chunk
    = Py.join ", " (Py.repr_pair <$> OrderedDict.keys (Py.slice (k * G) (k * G + G) d)).
Proof.
  intros HG Hout Hk. rewrite output_generator_spec in Hout by done.
  injection Hout as <-. rewrite list_lookup_fmap in Hk.
  destruct (seq 0 _ !! k) as [k'|] eqn:Hseq; [|done].
  apply lookup_seq in Hseq as [-> _]. simpl in Hk. injection Hk as <- <-.
  split; [done|]. apply header_of_keys.
Qed.

Lemma group_header_lists_coordinates_witness :
  1 = 1
  ∧ name (mkChunk "(1, 1)" "{{{'#666564', '#010101'}, {'#030303', '#ff8000'}}}")
    = Py.join ", " (Py.repr_pair <$> OrderedDict.keys
                      (Py.slice (1 * 3) (1 * 3 + 3) Sample.chunks_dict)).
Proof.
  apply (group_header_lists_coordinates Sample.chunks_dict 3 default_brackets
           [(mkChunk "(0, 0), (1, 0), (0, 1)"
               ("{{{'#ff0000', '#030201'}, {'#0c0b0a', '#000000'}}, "
                +:+ "{{'#302010', '#ffffff'}, {'#efcdab', '#060504'}}, "
                +:+ "{{'#070707', '#080808'}, {'#6496c8', '#020202'}}}"), 0);
            (mkChunk "(1, 1)" "{{{'#666564', '#010101'}, {'#030303', '#ff8000'}}}", 1)]).
  - lia.
  - vm_compute. reflexivity.
  - reflexivity.
Defined.

Section Brackets.
Variables (op cl : string).
Hypothesis Hop : has_char "]" op = false.

Let both (s : string) : string := Py.replace "]" cl (Py.replace "[" op s).

Lemma both_app (s t : string) : both (s +:+ t) = both s +:+ both t.
Proof. unfold both. by rewrite !replace_char_app. Qed.

Lemma both_absent (s : string) :
  has_char "[" s = false → has_char "]" s = false → both s = s.
Proof.
  intros Hs1 Hs2. unfold both.
  rewrite (replace_char_absent "[") by done. by apply replace_char_absent.
Qed.

Lemma both_open : both "[" = op.
Proof. unfold both. rewrite replace_char_self. by apply replace_char_absent. Qed.

Lemma both_close : both "]" = cl.
Proof. exact (replace_char_self "]" cl). Qed.

Lemma both_join {A} (repr f : A → string) (l : list A) :
  Forall (λ a, both (repr a) = f a) l →
  both (Py.join ", " (repr <$> l)) = Py.join ", " (f <$> l).
Proof.
  induction 1 as [|a l Ha Hl IH]; [done|].
  destruct l as [|a' l]; [exact Ha|].
  change (both (repr a +:+ ", " +:+ Py.join ", " (repr <$> a' :: l))
          = f a +:+ ", " +:+ Py.join ", " (f <$> a' :: l)).
  rewrite !both_app, Ha, IH. by rewrite (both_absent ", ").
Qed.

Lemma both_str_list {A} (repr f : A → string) (l : list A) :
  Forall (λ a, both (repr a) = f a) l →
  both (Py.str_list repr l) = op +:+ Py.join ", " (f <$> l) +:+ cl.
Proof.
  intros Hl. unfold Py.str_list.
  by rewrite !both_app, both_open, both_close, (both_join repr f).
Qed.
End Brackets.

Lemma color_has_no_bracket (s : string) (a : ascii) :
  matches_color s = true →
  is_lower_hex a = false → a ≠ "#"%char →
  has_char a s = false.
Proof.
  intros Hs Hhex Hhash.
  apply (has_char_all_chars (λ c, bool_decide (c = "#"%char) || is_lower_hex c)).
  { rewrite Hhex, orb_false_r. by apply bool_decide_eq_false. }
  destruct s as [|h [|c1 [|c2 [|c3 [|c4 [|c5 [|c6 [|]]]]]]]]; try done.
  cbn [matches_color forallb all_chars] in *.
  apply andb_true_iff in Hs as [-> Hs].
  repeat (apply andb_true_iff in Hs as [-> Hs]).
  by rewrite !orb_true_r.
Qed.

Lemma data_of_values (brackets : Brackets) (ks : list Coordinate) (vs : list Matrix) :
  has_char "]" (open brackets) = false →
  Forall (Forall (Forall (λ s, matches_color s = true))) vs →
  data (render_group brackets ks vs)
  = brace_list brackets (brace_list brackets (brace_list brackets Py.repr_str)) vs.
Proof.
  intros Hop Hvs. unfold render_group, brace_list. cbn [data].
  apply both_str_list; [done|].
  eapply Forall_impl; [exact Hvs|]. intros m Hm. cbv beta.
  apply both_str_list; [done|].
  eapply Forall_impl; [exact Hm|]. intros line Hline. cbv beta.
  apply both_str_list; [done|].
  eapply Forall_impl; [exact Hline|]. intros s Hs. cbv beta.
  unfold Py.repr_str. rewrite !both_app, !(both_absent _ _ "'") by done.
  by rewrite both_absent by (by apply color_has_no_bracket).
Qed.

(** C4: [N >= 1] chunks in groups of [G], [1 <= G <= 10], are yielded as
    [ceil(N / G)] groups with the sequence numbers [0, 1, ..., ceil(N / G) - 1]
    in this order.  Group [k] is made from the entries [k * G] up to
    [k * G + G] of the dictionary: [G] entries, except for the last group,
    which has [N mod G] entries, or [G] when [G] divides [N].  Its header
    lists the coordinates of exactly these entries, and its data holds
    exactly their matrices (where the strings of the matrices are colour
    strings and the opening bracket holds no [']']). *)
Theorem C4_groups_and_indices (d : list (Coordinate * Matrix)) (G : nat) (brackets : Brackets) :
  1 ≤ OrderedDict.len d →
  1 ≤ G ≤ 10 →
  ∃ out,
    output_generator d G brackets = Some out
    ∧ length out = ceil_div (OrderedDict.len d) G
    ∧ out.*2 = seq 0 (ceil_div (OrderedDict.len d) G)
    ∧ ∀ k, k < ceil_div (OrderedDict.len d) G →
        ∃ chunk group,
          out !! k = Some (chunk, k)
          ∧ group = Py.slice (k * G) (k * G + G) d
          ∧ length group
            = (if decide (k = ceil_div (OrderedDict.len d) G - 1)
               then (if decide (OrderedDict.len d `mod` G = 0)
                     then G else OrderedDict.len d `mod` G)
               else G)
          ∧ name chunk = Py.join ", " (Py.repr_pair <$> OrderedDict.keys group)
          ∧ (has_char "]" (open brackets) = false →
             Forall (Forall (Forall (λ s, matches_color s = true)))
               (OrderedDict.values group) →
             data chunk
             = brace_list brackets (brace_list brackets (brace_list brackets Py.repr_str))
                 (OrderedDict.values group)).
Proof.
  intros HN [HG _]. eexists. split; [by apply output_generator_spec|].
  split; [by rewrite length_fmap, length_seq|].
  split; [rewrite <- list_fmap_compose; apply list_fmap_id|].
  intros k Hk. eexists _, _. split; [|split; [reflexivity|]].
  - rewrite list_lookup_fmap, lookup_seq_lt by done. done.
  - split; [by apply slice_group_length|].
    split; [apply header_of_keys|]. intros Hop Hcolors. by apply data_of_values.
Qed.

Lemma C4_groups_and_indices_witness :
  ∃ out,
    output_generator Sample.chunks_dict 3 default_brackets = Some out
    ∧ length out = ceil_div (OrderedDict.len Sample.chunks_dict) 3
    ∧ out.*2 = seq 0 (ceil_div (OrderedDict.len Sample.chunks_dict) 3)
    ∧ ∀ k, k < ceil_div (OrderedDict.len Sample.chunks_dict) 3 →
        ∃ chunk group,
          out !! k = Some (chunk, k)
          ∧ group = Py.slice (k * 3) (k * 3 + 3) Sample.chunks_dict
          ∧ length group
            = (if decide (k = ceil_div (OrderedDict.len Sample.chunks_dict) 3 - 1)
               then (if decide (OrderedDict.len Sample.chunks_dict `mod` 3 = 0)
                     then 3 else OrderedDict.len Sample.chunks_dict `mod` 3)
               else 3)
          ∧ name chunk = Py.join ", " (Py.repr_pair <$> OrderedDict.keys group)
          ∧ (has_char "]" (open default_brackets) = false →
             Forall (Forall (Forall (λ s, matches_color s = true)))
               (OrderedDict.values group) →
             data chunk
             = brace_list default_brackets
                 (brace_list default_brackets (brace_list default_brackets Py.repr_str))
                 (OrderedDict.values group)).
Proof.
  apply (C4_groups_and_indices Sample.chunks_dict 3 default_brackets).
  - simpl. lia.
  - lia.
Defined.

(** X7: for a dictionary built by the extractor and brackets whose opening
    text holds no [']'], the data of every yielded group is its list of
    matrices with the chosen brackets at all three levels: around the group,
    around each matrix and around each row of quoted colour strings. *)
Theorem group_data_uses_brackets imread (img : Image) (chunk_size : Point)
    (d : list (Coordinate * Matrix)) (G : nat) (brackets : Brackets)
    (out : list (Chunk * nat)) (k n : nat) (chunk : Chunk) :
  get_chunks_dict imread img chunk_size = Some d →
  1 ≤ G →
  has_char "]" (open brackets) = false →
  output_generator d G brackets = Some out →
  out !! k = Some (chunk, n) →
  data chunk
  = brace_list brackets (brace_list brackets (brace_list brackets Py.repr_str))
      (OrderedDict.values (Py.slice (k * G) (k * G + G) d)).
Proof.
  intros Hd HG Hop Hout Hk. rewrite output_generator_spec in Hout by done.
  injection Hout as <-. rewrite list_lookup_fmap in Hk.
  destruct (seq 0 _ !! k) as [k'|] eqn:Hseq; [|done].
  apply lookup_seq in Hseq as [-> _]. simpl in Hk. injection Hk as <- <-.
  apply data_of_values; [done|].
  pose proof (chunk_matrices_shape _ _ _ _ Hd) as Hfull.
  rewrite <- slice_values. unfold Py.slice.
  apply Forall_take, Forall_drop.
  eapply Forall_impl; [exact Hfull|]. intros m [_ Hm]. simpl.
  eapply Forall_impl; [exact Hm|]. by intros line [_ Hline].
Qed.

Lemma group_data_uses_brackets_witness :
  data (mkChunk "(1, 1)" "{{{'#666564', '#010101'}, {'#030303', '#ff8000'}}}")
  = brace_list default_brackets
      (brace_list default_brackets (brace_list default_brackets Py.repr_str))
      (OrderedDict.values (Py.slice (1 * 3) (1 * 3 + 3) Sample.chunks_dict)).
Proof.
  apply (group_data_uses_brackets Sample.imread Sample.img Sample.chunk_size
           Sample.chunks_dict 3 default_brackets
           [(mkChunk "(0, 0), (1, 0), (0, 1)"
               ("{{{'#ff0000', '#030201'}, {'#0c0b0a', '#000000'}}, "
                +:+ "{{'#302010', '#ffffff'}, {'#efcdab', '#060504'}}, "
                +:+ "{{'#070707', '#080808'}, {'#6496c8', '#020202'}}}"), 0);
            (mkChunk "(1, 1)" "{{{'#666564', '#010101'}, {'#030303', '#ff8000'}}}", 1)]
           1 1).
  - reflexivity.
  - lia.
  - reflexivity.
  - vm_compute. reflexivity.
  - reflexivity.
Defined.

Lemma coordinate_tokens_app (s t : string) :
  coordinate_tokens (s +:+ t) = coordinate_tokens s +:+ coordinate_tokens t.
Proof.
  induction s as [|c s IH]; [done|].
  rewrite string_app_cons. cbn [coordinate_tokens].
  repeat case_decide; by rewrite IH.
Qed.

Lemma coordinate_tokens_digits (s : string) :
  all_chars is_digit s = true → coordinate_tokens s = s.
Proof.
  induction s as [|c s IH]; [done|].
  cbn [all_chars coordinate_tokens]. intros [Hc Hs]%andb_true_iff.
  rewrite IH by done.
  rewrite decide_False by (intros [->| ->]; done).
  by rewrite decide_False by (intros ->; done).
Qed.

Lemma coordinate_tokens_repr_pair (t : nat * nat) :
  coordinate_tokens (Py.repr_pair t) = quoted_pair t.
Proof.
  unfold Py.repr_pair, quoted_pair.
  rewrite !coordinate_tokens_app.
  by rewrite !(coordinate_tokens_digits (Py.str_int _)) by apply all_digits_str_int.
Qed.

Lemma coordinate_tokens_join (ks : list Coordinate) :
  coordinate_tokens (Py.join ", " (Py.repr_pair <$> ks)) = Py.join "," (quoted_pair <$> ks).
Proof.
  induction ks as [|t ks IH]; [done|].
  destruct ks as [|t' ks]; [apply coordinate_tokens_repr_pair|].
  change (coordinate_tokens
            (Py.repr_pair t +:+ ", " +:+ Py.join ", " (Py.repr_pair <$> t' :: ks))
          = quoted_pair t +:+ "," +:+ Py.join "," (quoted_pair <$> t' :: ks)).
  by rewrite !coordinate_tokens_app, coordinate_tokens_repr_pair, IH.
Qed.

(** X8: with add-code, the text written for a yielded group is the header
    comment, the assignment of the data and the loop over the group's
    coordinates, each listed as the quoted text [column,row] and separated by
    commas: the three replacements on the header leave the digits and the
    commas alone. *)
Theorem generated_loop_lists_quoted_pairs (brackets : Brackets) (ks : list Coordinate)
    (vs : list Matrix) :
  group_text (name (render_group brackets ks vs)) (data (render_group brackets ks vs)) true
  = "--" +:+ Py.join ", " (Py.repr_pair <$> ks) +:+ nl +:+ nl
      +:+ "mem.data = " +:+ data (render_group brackets ks vs) +:+ nl
      +:+ (nl +:+ "for k,v in ipairs({" +:+ Py.join "," (quoted_pair <$> ks)
              +:+ "}) do digiline_send(v, mem.data[k]) end" +:+ nl)
      +:+ nl.
Proof.
  unfold group_text, front_code_of, back_code_of.
  by rewrite header_tokens, header_of_keys, coordinate_tokens_join.
Qed.

(** ** Groups as a partition *)

Lemma concat_slices_take {A} (d : list A) (g m : nat) :
  concat ((λ k, Py.slice (k * g) (k * g + g) d) <$> seq 0 m) = take (m * g) d.
Proof.
  induction m as [|m IH]; [done|].
  rewrite seq_S, fmap_app, concat_app, IH. simpl. rewrite app_nil_r.
  unfold Py.slice. replace (m * g + g - m * g) with g by lia.
  rewrite take_take_drop. f_equal. lia.
Qed.

Lemma ceil_div_covers (n g : nat) : 0 < g → n ≤ ceil_div n g * g.
Proof.
  intros Hg. rewrite ceil_div_alt by done.
  pose proof (Nat.div_mod_eq n g). pose proof (Nat.mod_upper_bound n g).
  case_decide; nia.
Qed.

(** X9: the yielded groups cut the dictionary into consecutive pieces:
    put one after the other they are the dictionary again, no piece is empty
    and none is longer than the group size, so every chunk is written in
    exactly one group and in the order of the dictionary. *)
Theorem groups_partition_the_dictionary (d : list (Coordinate * Matrix)) (G : nat)
    (brackets : Brackets) (out : list (Chunk * nat)) :
  1 ≤ G →
  output_generator d G brackets = Some out →
  ∃ parts : list (list (Coordinate * Matrix)),
    concat parts = d
    ∧ Forall (λ part, 1 ≤ length part ≤ G) parts
    ∧ length out = length parts
    ∧ ∀ k part, parts !! k = Some part →
        out !! k = Some (render_group brackets (OrderedDict.keys part)
                           (OrderedDict.values part), k).
Proof.
  intros HG Hout. rewrite output_generator_spec in Hout by done. injection Hout as <-.
  exists ((λ k, Py.slice (k * G) (k * G + G) d) <$> seq 0 (ceil_div (length d) G)).
  split; [|split; [|split]].
  - rewrite concat_slices_take. apply take_ge. by apply ceil_div_covers.
  - apply Forall_fmap, Forall_forall. intros k Hk%elem_of_seq. simpl.
    rewrite slice_group_length by lia. unfold group_len.
    pose proof (Nat.mod_upper_bound (length d) G).
    repeat case_decide; lia.
  - by rewrite !length_fmap.
  - intros k part Hpart. rewrite list_lookup_fmap in Hpart. rewrite list_lookup_fmap.
    destruct (seq 0 _ !! k) as [k'|] eqn:Hseq; [|done].
    apply lookup_seq in Hseq as [-> _]. simpl in *. by injection Hpart as <-.
Qed.

Lemma groups_partition_the_dictionary_witness :
  ∃ parts : list (list (Coordinate * Matrix)),
    concat parts = Sample.chunks_dict
    ∧ Forall (λ part, 1 ≤ length part ≤ 3) parts
    ∧ length [(mkChunk "(0, 0), (1, 0), (0, 1)"
                 ("{{{'#ff0000', '#030201'}, {'#0c0b0a', '#000000'}}, "
                  +:+ "{{'#302010', '#ffffff'}, {'#efcdab', '#060504'}}, "
                  +:+ "{{'#070707', '#080808'}, {'#6496c8', '#020202'}}}"), 0);
               (mkChunk "(1, 1)" "{{{'#666564', '#010101'}, {'#030303', '#ff8000'}}}", 1)]
      = length parts
    ∧ ∀ k part, parts !! k = Some part →
        [(mkChunk "(0, 0), (1, 0), (0, 1)"
            ("{{{'#ff0000', '#030201'}, {'#0c0b0a', '#000000'}}, "
             +:+ "{{'#302010', '#ffffff'}, {'#efcdab', '#060504'}}, "
             +:+ "{{'#070707', '#080808'}, {'#6496c8', '#020202'}}}"), 0);
         (mkChunk "(1, 1)" "{{{'#666564', '#010101'}, {'#030303', '#ff8000'}}}", 1)] !! k
        = Some (render_group default_brackets (OrderedDict.keys part)
                  (OrderedDict.values part), k).
Proof.
  apply (groups_partition_the_dictionary Sample.chunks_dict 3 default_brackets).
  - lia.
  - vm_compute. reflexivity.
Defined.

(** ** What the writer leaves alone *)

Lemma store_output_other (header body : string) (img : Image) (o : Path) (num : nat)
    (single ow code v : bool) (w : World) (p : Path) :
  p ≠ output_file_of img o num single →
  files (store_output header body img o num single ow code v w) !! p = files w !! p.
Proof. intros Hp. rewrite store_output_files. by rewrite lookup_insert_ne. Qed.

Lemma store_output_appends (header body : string) (img : Image) (o : Path) (num : nat)
    (single code v : bool) (w : World) :
  files (store_output header body img o num single false code v w)
    !! output_file_of img o num single
  = Some (default EmptyString (files w !! output_file_of img o num single)
            +:+ group_text header body code).
Proof.
  rewrite store_output_files, lookup_insert_eq. cbn [andb].
  unfold write_mode, exists_. cbn [negb orb andb].
  destruct (files w !! _) as [old|] eqn:Hold.
  - by rewrite bool_decide_eq_true_2 by eauto.
  - by rewrite bool_decide_eq_false_2 by (by intros [? ?]).
Qed.

(** X10: storing the groups of an image changes no file other than the
    files named after this image. *)
Theorem other_files_are_untouched (args : Args) (img : Image) (o : Path)
    (groups : list (Chunk * nat)) (w : World) (p : Path) :
  (∀ num, p ≠ output_file_of img o num (one_file args)) →
  files (store_groups args img o groups w) !! p = files w !! p.
Proof.
  intros Hp. revert w. induction groups as [|g groups IH]; intros w; [done|].
  unfold store_groups in *. cbn [foldl]. rewrite IH. by apply store_output_other.
Qed.

Lemma other_files_are_untouched_witness :
  files (store_groups Sample.args_one_file_overwrite Sample.img ["out"]
           [(mkChunk "(0, 0)" "{}", 0)] Sample.old_world) !! ["out"; "pic[2,2](0).txt"]
  = files Sample.old_world !! ["out"; "pic[2,2](0).txt"].
Proof.
  apply (other_files_are_untouched Sample.args_one_file_overwrite Sample.img ["out"]
           [(mkChunk "(0, 0)" "{}", 0)] Sample.old_world ["out"; "pic[2,2](0).txt"]).
  intros num. vm_compute. discriminate.
Defined.

Lemma store_groups_keeps_old (args : Args) (img : Image) (o : Path)
    (groups : list (Chunk * nat)) (w : World) (p : Path) (old : string) :
  overwrite args = false →
  files w !! p = Some old →
  ∃ suffix, files (store_groups args img o groups w) !! p = Some (old +:+ suffix).
Proof.
  intros How. destruct args as [v0 G0 code0 single0 ow0]. simpl in How. subst ow0.
  revert w old. induction groups as [|g groups IH]; intros w old Hold.
  - exists EmptyString. simpl. by rewrite string_app_nil_r.
  - unfold store_groups in *. cbn [foldl one_file overwrite add_code verbose] in *.
    destruct (decide (p = output_file_of img o g.2 single0)) as [->|Hne].
    + pose proof (store_output_appends (name g.1) (data g.1) img o g.2 single0
                    code0 v0 w) as Hnew.
      rewrite Hold in Hnew. simpl in Hnew.
      destruct (IH _ _ Hnew) as [suffix Hsuffix].
      exists (group_text (name g.1) (data g.1) code0 +:+ suffix).
      by rewrite Hsuffix, string_app_assoc.
    + apply IH. by rewrite store_output_other.
Qed.

Section KeepsOld.
Variable imread : Path → option Cv2.ndarray.
Variables (args : Args) (chunk_size : Point) (o : Path).
Hypothesis How : overwrite args = false.

Lemma process_image_keeps_old (img : Image) (w w' : World) (p : Path) (old : string) :
  process_image imread args chunk_size o img w = Some w' →
  files w !! p = Some old →
  ∃ suffix, files w' !! p = Some (old +:+ suffix).
Proof.
  unfold process_image. intros Hrun Hold.
  destruct (get_chunks_dict imread img chunk_size) as [d|]; [|done]. simpl in Hrun.
  destruct (output_generator d (group_size args) default_brackets) as [groups|]; [|done].
  injection Hrun as <-. apply store_groups_keeps_old; [done|].
  by destruct (verbose args).
Qed.

Lemma process_images_keeps_old (tuples : list Image) (w w' : World) (p : Path)
    (old : string) :
  process_images imread args chunk_size o tuples w = Some w' →
  files w !! p = Some old →
  ∃ suffix, files w' !! p = Some (old +:+ suffix).
Proof.
  revert w old. induction tuples as [|img tuples IH]; intros w old Hrun Hold.
  - injection Hrun as <-. exists EmptyString. by rewrite string_app_nil_r.
  - cbn [process_images] in Hrun.
    destruct (process_image imread args chunk_size o img w) as [w1|] eqn:Himg; [|done].
    simpl in Hrun.
    destruct (process_image_keeps_old img w w1 p old Himg Hold) as [s1 Hs1].
    destruct (IH w1 _ Hrun Hs1) as [s2 Hs2].
    exists (s1 +:+ s2). by rewrite Hs2, string_app_assoc.
Qed.
End KeepsOld.

(** X11: without overwrite a run never loses what the output directory
    holds: every file that existed before the run still starts with its old
    content afterwards. *)
Theorem without_overwrite_nothing_is_lost imread (chunk_size : Point) (args : Args)
    (image_paths : list Path) (o : Path) (w w' : World) (p : Path) (old : string) :
  overwrite args = false →
  run imread chunk_size args image_paths o w = Some w' →
  files w !! p = Some old →
  ∃ suffix, files w' !! p = Some (old +:+ suffix).
Proof.
  intros How Hrun Hold. unfold run in Hrun.
  destruct (get_image_tuples imread image_paths chunk_size (verbose args)) as [r|];
    [|done].
  simpl in Hrun.
  destruct (process_images imread args chunk_size o r.1 _) as [w1|] eqn:Himages; [|done].
  injection Hrun as <-. cbn [print files].
  eapply process_images_keeps_old; [done|exact Himages|].
  pose proof (prints_disk r.2 w) as [= Hfiles _]. by rewrite Hfiles.
Qed.

Lemma without_overwrite_nothing_is_lost_witness :
  ∃ suffix,
    files (default Sample.empty_world
             (run Sample.imread Sample.chunk_size (mkArgs false 3 false true false)
                [ ["in"; "pic.png"] ] ["out"] Sample.old_world))
      !! ["out"; "pic[2,2].txt"]
    = Some ("old text" +:+ suffix).
Proof.
  apply (without_overwrite_nothing_is_lost Sample.imread Sample.chunk_size
           (mkArgs false 3 false true false) [ ["in"; "pic.png"] ] ["out"]
           Sample.old_world).
  - reflexivity.
  - vm_compute. reflexivity.
  - reflexivity.
Defined.

(** ** One file per group *)

Lemma string_app_inv_head (s t1 t2 : string) : s +:+ t1 = s +:+ t2 → t1 = t2.
Proof.
  induction s as [|c s IH]; [done|].
  rewrite !string_app_cons. intros [= Heq]. by apply IH.
Qed.

Lemma string_length_app (s t : string) :
  String.length (s +:+ t) = String.length s + String.length t.
Proof. induction s as [|c s IH]; [done|]. rewrite string_app_cons. simpl. by rewrite IH. Qed.

Lemma string_app_inv_tail (s1 s2 t : string) : s1 +:+ t = s2 +:+ t → s1 = s2.
Proof.
  intros Heq.
  assert (String.length s1 = String.length s2) as Hlen.
  { apply (f_equal String.length) in Heq. rewrite !string_length_app in Heq. lia. }
  revert s2 Heq Hlen. induction s1 as [|c s1 IH]; intros [|c' s2] Heq Hlen; try done.
  rewrite !string_app_cons in Heq. injection Heq as -> Heq.
  f_equal. apply IH; [done|]. simpl in Hlen. lia.
Qed.

Lemma output_file_of_per_group (img : Image) (o : Path) (num : nat) :
  output_file_of img o num false
  = o ++ [stem_of_name (stem (path img) +:+ "[" +:+ Py.str_int (chx img) +:+ ","
                          +:+ Py.str_int (chy img) +:+ "]")
          +:+ "(" +:+ Py.str_int num +:+ ")" +:+ ".txt"].
Proof.
  unfold output_file_of. cbn [negb]. unfold with_name at 1.
  rewrite name_with_name. unfold with_name, joinpath, stem.
  rewrite !removelast_last.
  change (PathLib.name (o ++ [?x])) with (PathLib.name (joinpath o x)).
  rewrite name_joinpath. by rewrite !string_app_assoc.
Qed.

Lemma output_file_of_inj (img : Image) (o : Path) (n m : nat) :
  output_file_of img o n false = output_file_of img o m false → n = m.
Proof.
  rewrite !output_file_of_per_group. intros Heq.
  apply app_inv_head in Heq. injection Heq as Heq.
  apply string_app_inv_head, string_app_inv_head in Heq.
  apply (string_app_inv_tail _ _ (")" +:+ ".txt")) in Heq.
  by apply (inj pretty) in Heq.
Qed.

(** X12: the groups of an image go to different files: the name of a
    per-group file determines the sequence number. *)
Theorem group_files_are_distinct (img : Image) (o : Path) (n m : nat) :
  output_file_of img o n false = output_file_of img o m false → n = m.
Proof. apply output_file_of_inj. Qed.

Lemma group_files_are_distinct_witness : 1 = 1.
Proof.
  apply (group_files_are_distinct Sample.img ["out"] 1 1). reflexivity.
Defined.

Lemma store_output_overwrite_per_group (header body : string) (img : Image) (o : Path)
    (num : nat) (code v : bool) (w : World) :
  files (store_output header body img o num false true code v w)
    !! output_file_of img o num false
  = Some (group_text header body code).
Proof.
  rewrite store_output_files, lookup_insert_eq.
  unfold write_mode. cbn [negb orb]. rewrite andb_false_r.
  by destruct (true && bool_decide (num = 0)).
Qed.

Lemma store_groups_overwrite_each (G : nat) (code v : bool) (img : Image) (o : Path)
    (groups : list (Chunk * nat)) (w : World) (chunk : Chunk) (n : nat) :
  NoDup groups.*2 →
  (chunk, n) ∈ groups →
  files (store_groups (mkArgs v G code false true) img o groups w)
    !! output_file_of img o n false
  = Some (group_text (name chunk) (data chunk) code).
Proof.
  induction groups as [|g groups IH] using rev_ind; intros Hnd Hin.
  - by apply elem_of_nil in Hin.
  - unfold store_groups in *. rewrite foldl_app. cbn [foldl one_file overwrite add_code verbose].
    rewrite fmap_app in Hnd. apply NoDup_app in Hnd as (Hnd & Hfresh & _).
    apply elem_of_app in Hin as [Hin|Hin].
    + rewrite store_output_other; [by apply IH|].
      intros Heq%output_file_of_inj. apply (Hfresh n).
      * apply list_elem_of_fmap. by exists (chunk, n).
      * rewrite Heq. simpl. left.
    + apply list_elem_of_singleton in Hin as <-. simpl.
      apply store_output_overwrite_per_group.
Qed.

(** X13: with overwrite and a file per group, after the groups of an
    image are stored the file of every group holds the text of that group
    and nothing else, whatever the directory held before. *)
Theorem overwrite_gives_each_group_its_file (d : list (Coordinate * Matrix)) (G : nat)
    (code v : bool) (img : Image) (o : Path) (groups : list (Chunk * nat)) (w : World)
    (chunk : Chunk) (n : nat) :
  1 ≤ G →
  output_generator d G default_brackets = Some groups →
  (chunk, n) ∈ groups →
  files (store_groups (mkArgs v G code false true) img o groups w)
    !! output_file_of img o n false
  = Some (group_text (name chunk) (data chunk) code).
Proof.
  intros HG Hgen Hin. apply store_groups_overwrite_each; [|done].
  rewrite (output_generator_indices _ _ _ _ HG Hgen). apply NoDup_seq.
Qed.

Lemma overwrite_gives_each_group_its_file_witness :
  files (store_groups (mkArgs false 3 false false true) Sample.img ["out"]
           [(mkChunk "(0, 0), (1, 0), (0, 1)"
               ("{{{'#ff0000', '#030201'}, {'#0c0b0a', '#000000'}}, "
                +:+ "{{'#302010', '#ffffff'}, {'#efcdab', '#060504'}}, "
                +:+ "{{'#070707', '#080808'}, {'#6496c8', '#020202'}}}"), 0);
            (mkChunk "(1, 1)" "{{{'#666564', '#010101'}, {'#030303', '#ff8000'}}}", 1)]
           Sample.old_world) !! output_file_of Sample.img ["out"] 0 false
  = Some (group_text
            (name (mkChunk "(0, 0), (1, 0), (0, 1)"
                     ("{{{'#ff0000', '#030201'}, {'#0c0b0a', '#000000'}}, "
                      +:+ "{{'#302010', '#ffffff'}, {'#efcdab', '#060504'}}, "
                      +:+ "{{'#070707', '#080808'}, {'#6496c8', '#020202'}}}")))
            (data (mkChunk "(0, 0), (1, 0), (0, 1)"
                     ("{{{'#ff0000', '#030201'}, {'#0c0b0a', '#000000'}}, "
                      +:+ "{{'#302010', '#ffffff'}, {'#efcdab', '#060504'}}, "
                      +:+ "{{'#070707', '#080808'}, {'#6496c8', '#020202'}}}")))
            false).
Proof.
  apply (overwrite_gives_each_group_its_file Sample.chunks_dict 3 false false Sample.img
           ["out"] _ Sample.old_world).
  - lia.
  - vm_compute. reflexivity.
  - left.
Defined.

(** ** One file for the image *)

Lemma store_groups_one_file_appends (G : nat) (code v : bool) (img : Image) (o : Path)
    (groups : list (Chunk * nat)) (w : World) :
  groups ≠ [] →
  files (store_groups (mkArgs v G code true false) img o groups w)
    !! output_file_of img o 0 true
  = Some (default EmptyString (files w !! output_file_of img o 0 true)
            +:+ groups_text code groups).
Proof.
  revert w. induction groups as [|g groups IH]; intros w Hne; [done|].
  unfold store_groups in *. cbn [foldl one_file overwrite add_code verbose].
  pose proof (store_output_appends (name g.1) (data g.1) img o g.2 true code v w) as Hnew.
  change (output_file_of img o g.2 true) with (output_file_of img o 0 true) in Hnew.
  destruct groups as [|g' groups].
  - cbn [foldl groups_text foldr]. by rewrite Hnew, string_app_nil_r.
  - rewrite IH by done. rewrite Hnew. simpl.
    cbn [groups_text foldr]. by rewrite string_app_assoc.
Qed.

(** X14: in one-file mode without overwrite, storing the groups of an
    image leaves its file holding what it held before (nothing, if it did
    not exist) followed by the texts of all groups in order. *)
Theorem one_file_mode_appends_all_groups (d : list (Coordinate * Matrix)) (G : nat)
    (code v : bool) (img : Image) (o : Path) (groups : list (Chunk * nat)) (w : World) :
  1 ≤ OrderedDict.len d → 1 ≤ G →
  output_generator d G default_brackets = Some groups →
  files (store_groups (mkArgs v G code true false) img o groups w)
    !! output_file_of img o 0 true
  = Some (default EmptyString (files w !! output_file_of img o 0 true)
            +:+ groups_text code groups).
Proof.
  intros HN HG Hgen. apply store_groups_one_file_appends.
  pose proof (output_generator_indices _ _ _ _ HG Hgen) as Hnums.
  rewrite (ceil_div_step (length d) G) in Hnums by done.
  by destruct groups.
Qed.

Lemma one_file_mode_appends_all_groups_witness :
  files (store_groups (mkArgs false 3 false true false) Sample.img ["out"]
           [(mkChunk "(0, 0), (1, 0), (0, 1)"
               ("{{{'#ff0000', '#030201'}, {'#0c0b0a', '#000000'}}, "
                +:+ "{{'#302010', '#ffffff'}, {'#efcdab', '#060504'}}, "
                +:+ "{{'#070707', '#080808'}, {'#6496c8', '#020202'}}}"), 0);
            (mkChunk "(1, 1)" "{{{'#666564', '#010101'}, {'#030303', '#ff8000'}}}", 1)]
           Sample.old_world) !! output_file_of Sample.img ["out"] 0 true
  = Some (default EmptyString (files Sample.old_world !! output_file_of Sample.img ["out"] 0 true)
            +:+ groups_text false
                  [(mkChunk "(0, 0), (1, 0), (0, 1)"
                      ("{{{'#ff0000', '#030201'}, {'#0c0b0a', '#000000'}}, "
                       +:+ "{{'#302010', '#ffffff'}, {'#efcdab', '#060504'}}, "
                       +:+ "{{'#070707', '#080808'}, {'#6496c8', '#020202'}}}"), 0);
                   (mkChunk "(1, 1)" "{{{'#666564', '#010101'}, {'#030303', '#ff8000'}}}", 1)]).
Proof.
  apply (one_file_mode_appends_all_groups Sample.chunks_dict 3 false false Sample.img
           ["out"] _ Sample.old_world).
  - simpl. lia.
  - lia.
  - vm_compute. reflexivity.
Defined.

(** ** Whole runs *)

Lemma sample_decoder_well_formed (p : Path) (arr : Cv2.ndarray) :
  Sample.imread p = Some arr → Cv2.well_formed arr.
Proof.
  unfold Sample.imread. repeat case_decide; intros [= <-];
    apply (bool_decide_unpack _); vm_compute; exact I.
Qed.

(** X15: when the decoder returns well-formed arrays and the group size
    is at least one, the loop of [main] meets no exception before it writes:
    for every image tuple that validation returns, the extractor returns a
    dictionary with [chy * chx] entries, since no index falls outside the
    buffer, and the generator yields [ceil(chy * chx / G)] groups, at least
    one. *)
Theorem accepted_images_are_extracted_and_grouped imread (image_paths : list Path)
    (chunk_size : Point) (v : bool) (G : nat) (tuples : list Image) (out : list string) :
  (∀ p arr, imread p = Some arr → Cv2.well_formed arr) →
  1 ≤ G →
  get_image_tuples imread image_paths chunk_size v = Some (tuples, out) →
  Forall (λ img, ∃ d groups,
            get_chunks_dict imread img chunk_size = Some d
            ∧ OrderedDict.len d = chy img * chx img
            ∧ output_generator d G default_brackets = Some groups
            ∧ length groups = ceil_div (chy img * chx img) G
            ∧ 1 ≤ length groups) tuples.
Proof.
  intros Hdecoder HG. unfold get_image_tuples. case_decide; [done|]. intros [= Hfold].
  destruct (validated_tuples imread chunk_size v image_paths) as [Hacc _].
  rewrite Hfold in Hacc. simpl in Hacc.
  eapply Forall_impl; [exact Hacc|]. intros img Himg. simpl in Himg.
  destruct (read_image_accepted _ _ _ _ Himg) as (arr & Hread & _ & _ & _ & Hchx & Hchy).
  destruct (get_chunks_dict_validated imread chunk_size (path img) arr img Hread
              (Hdecoder _ _ Hread) Himg) as (d & Hd & Hkeys & _).
  assert (OrderedDict.len d = chy img * chx img) as Hlen.
  { unfold OrderedDict.len. rewrite <- (length_fmap fst d).
    unfold OrderedDict.keys in Hkeys. by rewrite Hkeys, chunk_coordinates_length. }
  exists d. eexists. split; [done|]. split; [done|].
  split; [by apply output_generator_spec|].
  unfold OrderedDict.len in Hlen. rewrite length_fmap, length_seq, Hlen.
  split; [done|]. rewrite (ceil_div_step (chy img * chx img) G) by nia. lia.
Qed.

Lemma accepted_images_are_extracted_and_grouped_witness :
  Forall (λ img, ∃ d groups,
            get_chunks_dict Sample.imread img Sample.chunk_size = Some d
            ∧ OrderedDict.len d = chy img * chx img
            ∧ output_generator d 3 default_brackets = Some groups
            ∧ length groups = ceil_div (chy img * chx img) 3
            ∧ 1 ≤ length groups) [mkImage ["in"; "pic.png"] 2 2].
Proof.
  apply (accepted_images_are_extracted_and_grouped Sample.imread
           [ ["in"; "tiny.png"]; ["in"; "pic.png"] ] Sample.chunk_size false 3 _
           ["Can't process image (smaller than chunk size): in/tiny.png"]).
  - exact sample_decoder_well_formed.
  - lia.
  - reflexivity.
Defined.



Section Verbose.
Variable imread : Path → option Cv2.ndarray.
Variables (G : nat) (code single ow v1 v2 : bool) (chunk_size : Point) (o : Path).


End Verbose.


(** ** The order of paths *)

Lemma ascii_compare_refl (a : ascii) : Ascii.compare a a = Eq.
Proof. apply N.compare_refl. Qed.

Lemma ascii_compare_lt_trans (a b c : ascii) :
  Ascii.compare a b = Lt → Ascii.compare b c = Lt → Ascii.compare a c = Lt.
Proof.
  unfold Ascii.compare. rewrite !N.compare_lt_iff. apply N.lt_trans.
Qed.

Lemma string_compare_refl (s : string) : String.compare s s = Eq.
Proof.
  induction s as [|c s IH]; [done|]. simpl. by rewrite ascii_compare_refl.
Qed.

Lemma string_compare_lt_trans (s t u : string) :
  String.compare s t = Lt → String.compare t u = Lt → String.compare s u = Lt.
Proof.
  revert t u. induction s as [|a s IH]; intros [|b t] [|c u]; simpl; try done.
  destruct (Ascii.compare a b) eqn:Hab; [| |done].
  - apply Ascii.compare_eq_iff in Hab as ->.
    destruct (Ascii.compare b c); [apply IH|done|done].
  - destruct (Ascii.compare b c) eqn:Hbc; [| |done].
    + apply Ascii.compare_eq_iff in Hbc as ->. by rewrite Hab.
    + by rewrite (ascii_compare_lt_trans a b c).
Qed.

Global Instance path_le_total : Total path_le.
Proof.
  intros p. unfold path_le. induction p as [|a p IH]; intros [|b q]; simpl; auto.
  rewrite (String.compare_antisym b a).
  destruct (String.compare a b); simpl; auto.
Qed.

Global Instance path_le_trans : Transitive path_le.
Proof.
  intros p. unfold path_le.
  induction p as [|a p IH]; intros [|b q] [|c r]; simpl; try done.
  destruct (String.compare a b) eqn:Hab; [| |done].
  - apply String.compare_eq_iff in Hab as ->.
    destruct (String.compare b c); [apply IH|done|done].
  - destruct (String.compare b c) eqn:Hbc; [| |done].
    + apply String.compare_eq_iff in Hbc as ->. by rewrite Hab.
    + by rewrite (string_compare_lt_trans a b c).
Qed.

Global Instance path_le_antisym : AntiSymm (=) path_le.
Proof.
  intros p. unfold path_le. induction p as [|a p IH]; intros [|b q]; simpl; try done.
  rewrite (String.compare_antisym b a).
  destruct (String.compare a b) eqn:Hab; simpl; try done.
  apply String.compare_eq_iff in Hab as ->. intros Hpq Hqp. f_equal. by apply IH.
Qed.

Lemma StronglySorted_sublist {A} (R : relation A) (k l : list A) :
  k `sublist_of` l → StronglySorted R l → StronglySorted R k.
Proof.
  induction 1 as [|x k l Hkl IH|x k l Hkl IH]; intros Hl; [done|..].
  - apply StronglySorted_inv in Hl as [Hl Hx]. constructor; [by apply IH|].
    eapply Forall_forall. intros y Hy. eapply Forall_forall in Hx; [exact Hx|].
    by eapply elem_of_sublist.
  - apply StronglySorted_inv in Hl as [Hl _]. by apply IH.
Qed.

Lemma sorted_is_ascending (l : list Path) : StronglySorted path_le (sorted l).
Proof. apply StronglySorted_merge_sort; apply _. Qed.

Lemma sorted_is_permutation (l : list Path) : sorted l ≡ₚ l.
Proof. apply merge_sort_Permutation. Qed.

(** ** The files that are found *)

Section Found.
Variables (is_file is_dir : Path → bool) (iterdir : Path → list Path).
Variables (path : Path) (extensions : list string).

Lemma find_image_paths_file :
  is_image_file is_file extensions path →
  find_image_paths is_file is_dir iterdir path extensions = [path].
Proof. intros Hfile. unfold find_image_paths. by rewrite decide_True. Qed.

Lemma find_image_paths_dir :
  ¬ is_image_file is_file extensions path → is_dir path = true →
  find_image_paths is_file is_dir iterdir path extensions
  = filter (is_image_file is_file extensions) (sorted (iterdir path)).
Proof.
  intros Hfile Hdir. unfold find_image_paths. by rewrite decide_False, Hdir.
Qed.

Lemma find_image_paths_ascending :
  StronglySorted path_le (find_image_paths is_file is_dir iterdir path extensions).
Proof.
  unfold find_image_paths. case_decide.
  - repeat constructor.
  - destruct (is_dir path); [|constructor].
    eapply StronglySorted_sublist; [apply sublist_filter|apply sorted_is_ascending].
Qed.

Lemma find_image_paths_elem (p : Path) :
  p ∈ find_image_paths is_file is_dir iterdir path extensions →
  is_image_file is_file extensions p
  ∧ (p = path ∨ (is_dir path = true ∧ p ∈ iterdir path)).
Proof.
  unfold find_image_paths. case_decide as Hfile.
  - intros ->%list_elem_of_singleton. auto.
  - destruct (is_dir path) eqn:Hdir; [|by intros ?%elem_of_nil].
    intros [Hp Hin]%list_elem_of_filter. split; [done|]. right. split; [done|].
    by rewrite <- (sorted_is_permutation (iterdir path)).
Qed.
End Found.

(** X17: for an input directory the candidate files are exactly its
    direct children that are files with a recognised suffix, each as often
    as the directory lists it, in ascending order of their paths. *)
Theorem directory_candidates_sorted_and_complete (is_file is_dir : Path → bool)
    (iterdir : Path → list Path) (path : Path) (extensions : list string) :
  ¬ is_image_file is_file extensions path →
  is_dir path = true →
  StronglySorted path_le (find_image_paths is_file is_dir iterdir path extensions)
  ∧ find_image_paths is_file is_dir iterdir path extensions
    ≡ₚ filter (is_image_file is_file extensions) (iterdir path).
Proof.
  intros Hfile Hdir. split; [apply find_image_paths_ascending|].
  rewrite find_image_paths_dir by done. by rewrite sorted_is_permutation.
Qed.

Lemma sample_input_is_no_image_file :
  ¬ is_image_file Sample.is_file default_extensions ["in"].
Proof. intros [Hfile _]. vm_compute in Hfile. discriminate. Qed.

Lemma directory_candidates_sorted_and_complete_witness :
  StronglySorted path_le
    (find_image_paths Sample.is_file Sample.is_dir Sample.iterdir ["in"] default_extensions)
  ∧ find_image_paths Sample.is_file Sample.is_dir Sample.iterdir ["in"] default_extensions
    ≡ₚ filter (is_image_file Sample.is_file default_extensions) (Sample.iterdir ["in"]).
Proof.
  apply (directory_candidates_sorted_and_complete Sample.is_file Sample.is_dir
           Sample.iterdir ["in"] default_extensions).
  - exact sample_input_is_no_image_file.
  - reflexivity.
Defined.

(** X18: the order in which the directory lists its children does not
    matter: two listings with the same children give the same candidate
    files in the same order. *)
Theorem listing_order_does_not_matter (is_file is_dir : Path → bool)
    (iterdir1 iterdir2 : Path → list Path) (path : Path) (extensions : list string) :
  iterdir1 path ≡ₚ iterdir2 path →
  find_image_paths is_file is_dir iterdir1 path extensions
  = find_image_paths is_file is_dir iterdir2 path extensions.
Proof.
  intros Hperm.
  apply (StronglySorted_unique path_le); [apply find_image_paths_ascending..|].
  unfold find_image_paths. case_decide; [done|].
  destruct (is_dir path); [|done].
  by rewrite !sorted_is_permutation, Hperm.
Qed.

Lemma listing_order_does_not_matter_witness :
  find_image_paths Sample.is_file Sample.is_dir Sample.iterdir ["in"] default_extensions
  = find_image_paths Sample.is_file Sample.is_dir (λ p, reverse (Sample.iterdir p)) ["in"]
      default_extensions.
Proof.
  apply (listing_order_does_not_matter Sample.is_file Sample.is_dir Sample.iterdir
           (λ p, reverse (Sample.iterdir p)) ["in"] default_extensions).
  symmetry. apply reverse_Permutation.
Defined.

(** X19: the image tuples that [get_image_tuples] returns for an input
    path are in ascending order of their paths, and each one is a file with
    a recognised suffix: the input path itself or a child of the input
    directory. *)
Theorem image_tuples_sorted_image_files (is_file is_dir : Path → bool)
    (iterdir : Path → list Path) imread (input : Path) (chunk_size : Point)
    (extensions : list string) (v : bool) (tuples : list Image) (out : list string) :
  get_image_tuples_from_path is_file is_dir iterdir imread input chunk_size extensions v
  = Some (tuples, out) →
  StronglySorted path_le (path <$> tuples)
  ∧ Forall (λ img, is_image_file is_file extensions (path img)
                   ∧ (path img = input
                      ∨ (is_dir input = true ∧ path img ∈ iterdir input))) tuples.
Proof.
  unfold get_image_tuples_from_path, get_image_tuples.
  case_decide; [done|]. intros [= Hfold].
  destruct (validated_tuples imread chunk_size v
              (find_image_paths is_file is_dir iterdir input extensions)) as [_ Hsub].
  rewrite Hfold in Hsub. simpl in Hsub.
  split.
  - eapply StronglySorted_sublist; [exact Hsub|apply find_image_paths_ascending].
  - apply Forall_forall. intros img Himg.
    apply (find_image_paths_elem is_file is_dir iterdir input extensions).
    eapply elem_of_sublist; [|exact Hsub]. by apply list_elem_of_fmap_2.
Qed.

Lemma image_tuples_sorted_image_files_witness :
  StronglySorted path_le
    (path <$> [mkImage ["in"; "pic.png"] 2 2; mkImage ["in"; "sq.png"] 16 16])
  ∧ Forall (λ img, is_image_file Sample.is_file default_extensions (path img)
                   ∧ (path img = ["in"]
                      ∨ (Sample.is_dir ["in"] = true ∧ path img ∈ Sample.iterdir ["in"])))
      [mkImage ["in"; "pic.png"] 2 2; mkImage ["in"; "sq.png"] 16 16].
Proof.
  apply (image_tuples_sorted_image_files Sample.is_file Sample.is_dir Sample.iterdir
           Sample.imread ["in"] Sample.chunk_size default_extensions false _
           ["Can't process image (smaller than chunk size): in/tiny.png"]).
  vm_compute. reflexivity.
Defined.

(** ** Colours are not confused *)

Lemma byte_of_hex_byte (v : Byte.byte) : byte_of_hex (hex_byte v) = Some v.
Proof. destruct v; reflexivity. Qed.

Lemma hex_byte_inj (v1 v2 : Byte.byte) : hex_byte v1 = hex_byte v2 → v1 = v2.
Proof.
  intros Heq. apply (f_equal byte_of_hex) in Heq.
  rewrite !byte_of_hex_byte in Heq. by injection Heq.
Qed.

(** X20: the colour strings keep the pixels apart: two pixels with the
    same string have the same blue, green and red values. *)
Theorem equal_colors_equal_pixels (b1 g1 r1 b2 g2 r2 : Byte.byte) (s : string) :
  format_color (reverse [b1; g1; r1]) = Some s →
  format_color (reverse [b2; g2; r2]) = Some s →
  b1 = b2 ∧ g1 = g2 ∧ r1 = r2.
Proof.
  rewrite !format_color_reversed. intros [= <-] Heq.
  injection Heq as Hr1 Hr2 Hg1 Hg2 Hb1 Hb2.
  repeat split; apply hex_byte_inj; unfold hex_byte; congruence.
Qed.

Lemma equal_colors_equal_pixels_witness :
  Byte.x10 = Byte.x10 ∧ Byte.x20 = Byte.x20 ∧ Byte.x30 = Byte.x30.
Proof.
  apply (equal_colors_equal_pixels Byte.x10 Byte.x20 Byte.x30 Byte.x10 Byte.x20 Byte.x30
           "#302010"); reflexivity.
Defined.

(** ** Extraction where no pixel is read *)

Example extraction_without_pixels :
  get_chunks_dict (λ _, None) (mkImage ["in"; "none.png"] 0 0) Sample.chunk_size = Some []
  ∧ get_chunks_dict (λ _, None) (mkImage ["in"; "none.png"] 1 1) (mkPoint 0 2)
    = Some [((0, 0), [[]; []])]
  ∧ get_chunks_dict (λ _, None) (mkImage ["in"; "none.png"] 1 1) Sample.chunk_size = None.
Proof. repeat split; reflexivity. Qed.
